(** * Pod choosers of the Kubernetes driver

    A shallow embedding of [pkg/driver/kubernetes/podchooser/podchooser.go]:
    replica discovery ([ListRunningPods]) and the two selection policies
    ([RandomPodChooser.ChoosePod], [StickyPodChooser.ChoosePod]).

    Conventions of the embedding.
    - Go strings are [string]; [<] on strings is the byte-wise lexicographic
      order, which is [String.ltb].
    - [int] is the 64-bit integer of the supported platforms, kept in [Z].
    - A [*corev1.Pod] is an [option Pod]: [None] is the nil pointer.  A slice
      [[]*corev1.Pod] is the list of its elements; a nil slice is [[]].
    - Method receivers are addresses into a store of chooser objects, so that
      what a call writes (and what it does not) is visible in the final state.
    - Everything behind an interface or in another package (the pod client,
      the selector library, [sort.Slice], the hash ring, the random source and
      the clock) is a parameter of the development; the part of its contract
      that a proof uses is a hypothesis of that proof. *)

From Stdlib Require Import ZArith Lia.
From stdpp Require Import base tactics option list functions sorting strings gmap.

(** ** Go run time: panics and the state-and-panic monad *)

Inductive panic :=
  | NilDereference          (* invalid memory address or nil pointer dereference *)
  | IndexOutOfRange         (* index out of range *)
  | MakeSliceLenOutOfRange. (* makeslice: len out of range *)

Inductive exit (A : Type) :=
  | Done (a : A)
  | Panicked (p : panic).
Arguments Done {A} a.
Arguments Panicked {A} p.

(** ** Kubernetes objects, as far as the package reads them *)

Record ObjectMeta := { Name : string; UID : string }.

Definition PodPhase := string.
Definition PodPending : PodPhase := "Pending".
Definition PodRunning : PodPhase := "Running".
Definition PodSucceeded : PodPhase := "Succeeded".
Definition PodFailed : PodPhase := "Failed".
Definition PodUnknown : PodPhase := "Unknown".

Record PodStatus := { Phase : PodPhase }.

Record Pod := { PodMeta : ObjectMeta; Status : PodStatus }.

Record PodList := { Items : list Pod }.

Record Deployment := { DeploymentMeta : ObjectMeta }.

Record LabelSelector := { MatchLabels : gmap string string }.

Record ListOptions := { ListLabelSelector : string }.

Definition pod_Name (p : Pod) : string := Name (PodMeta p).

Definition PodPtr := option Pod.

Global Instance ObjectMeta_eq_dec : EqDecision ObjectMeta.
Proof. solve_decision. Defined.
Global Instance PodStatus_eq_dec : EqDecision PodStatus.
Proof. solve_decision. Defined.
Global Instance Pod_eq_dec : EqDecision Pod.
Proof. solve_decision. Defined.

(** Go [error] values.  [Errorf] is an error made by [fmt.Errorf] inside the
    package; [External] is an error value handed over by a collaborator (the
    pod client or the selector library), named by an opaque token. *)
Inductive error :=
  | Errorf (msg : string)
  | External (token : string).

Global Instance error_eq_dec : EqDecision error.
Proof. solve_decision. Defined.

(** What a collaborator returns: a value, or an error of its own, which the
    package sees as [External token]. *)
Inductive result (A : Type) :=
  | Ok (a : A)
  | Failure (token : string).
Arguments Ok {A} a.
Arguments Failure {A} token.

(** ** Log records written through logrus *)

Inductive LogLevel := DebugLevel | ErrorLevel.

Inductive LogArg := ArgInt (z : Z) | ArgString (s : string).

Record LogEntry := { level : LogLevel; format : string; args : list LogArg }.

(** ** Chooser objects *)

Definition SourceRef := nat.

Record RandomPodChooser (PodInterface : Type) := {
  RandSource : option SourceRef;         (* rand.Source, nil when unset *)
  RandomPodClient : option PodInterface;
  RandomDeployment : option Deployment
}.
Arguments RandSource {PodInterface}.
Arguments RandomPodClient {PodInterface}.
Arguments RandomDeployment {PodInterface}.

Record StickyPodChooser (PodInterface : Type) := {
  Key : string;
  StickyPodClient : option PodInterface;
  StickyDeployment : option Deployment
}.
Arguments Key {PodInterface}.
Arguments StickyPodClient {PodInterface}.
Arguments StickyDeployment {PodInterface}.

(** The two operands of [return pods[n], append(pods[0:n], pods[n+1:]...), nil]
    share one backing array.  The language orders function calls, method
    calls and communication operations from left to right, and leaves open
    when an operand that is none of these is read: for
    [a := 1; f := func() int { a++; return a }; x := []int{a, f()}] the
    language specification allows both [[1, 2]] and [[2, 2]].  So the index
    expression [pods[n]] may be read before or after the call of [append];
    the compiler's choice is a parameter. *)
Inductive OperandOrder := IndexBeforeCall | CallBeforeIndex.

(** A comparison function fit for [sort.Slice]. *)
Record strict_weak_order {A} (less : A → A → bool) : Prop := {
  swo_irrefl : ∀ a, less a a = false;
  swo_trans : ∀ a b c, less a b = true → less b c = true → less a c = true;
  swo_negtrans : ∀ a b c, less a b = false → less b c = false → less a c = false
}.

(** What [sort.Slice] establishes between an element and a later one. *)
Definition in_order {A} (less : A → A → bool) (a b : A) : Prop := less b a = false.

Global Instance in_order_dec {A} (less : A → A → bool) a b :
  Decision (in_order less a b).
Proof. unfold in_order. apply _. Defined.

(** ** The int returned by the [Int] method of [rand.Rand] for a value of the
    source:
    [u := uint(r.Int63()); return int(u << 1 >> 1)]. *)
Definition Rand_Int (v : Z) : Z :=
  let u := (v mod 2 ^ 64)%Z in
  Z.shiftr (Z.shiftl u 1 mod 2 ^ 64) 1.

(** [rnd.Int() % len(pods)] for the value [v] that the source hands out. *)
Definition drawn_index (v : Z) (len : nat) : Z :=
  Z.rem (Rand_Int v) (Z.of_nat len).

(** The content of the backing array of [pods] and the slice that
    [append(pods[0:n], pods[n+1:]...)] returns.  [cap(pods[0:n])] is
    [cap(pods)], at least [len(pods)], so nothing is reallocated: the tail
    moves down one slot in place and the last slot keeps its old content. *)
Definition append_cut {A} (pods : list A) (n : nat) : list A * list A :=
  let res := take n pods ++ drop (S n) pods in
  (res, res ++ drop (length res) pods).

Section podchooser.
(** What lies outside the package. *)
Context {Env : Type}.                 (* the cluster and the wall clock *)
Context {PodInterface Context_ : Type}.
Context {Selector : Type}.
Context {SrcState : Type}.            (* the state behind a rand.Source *)

Context (client_List :
  PodInterface → Context_ → ListOptions → Env → result PodList * Env).
Context (LabelSelectorAsSelector : LabelSelector → result Selector).
Context (Selector_String : Selector → string).
Context (sort_Slice : (Pod → Pod → bool) → list Pod → list Pod).
Context (hashring_GetNode : list string → string → option string).
Context (time_Now_Unix : Env → Z).
Context (rand_NewSource : Z → SrcState).
Context (Source_Int63 : SrcState → Z * SrcState).
Context (operand_order : OperandOrder).

Record World := {
  env : Env;
  sources : SourceRef → SrcState;
  logs : list LogEntry;
  random_choosers : list (RandomPodChooser PodInterface);
  sticky_choosers : list (StickyPodChooser PodInterface)
}.

Definition M (A : Type) : Type := World → exit A * World.

Global Instance M_ret : MRet M := λ A a w, (Done a, w).
Global Instance M_bind : MBind M := λ A B k m w,
  match m w with
  | (Done a, w') => k a w'
  | (Panicked p, w') => (Panicked p, w')
  end.

Definition throw {A} (p : panic) : M A := λ w, (Panicked p, w).

(** [*p] for a pointer [p]. *)
Definition deref {A} (p : option A) : M A :=
  match p with
  | Some a => mret a
  | None => throw NilDereference
  end.

(** The four ways in which the package changes the world. *)
Definition set_env (e : Env) (w : World) : World :=
  {| env := e; sources := sources w; logs := logs w;
     random_choosers := random_choosers w;
     sticky_choosers := sticky_choosers w |}.

Definition set_source (src : SourceRef) (s : SrcState) (w : World) : World :=
  {| env := env w; sources := <[src := s]> (sources w); logs := logs w;
     random_choosers := random_choosers w;
     sticky_choosers := sticky_choosers w |}.

Definition add_logs (entries : list LogEntry) (w : World) : World :=
  {| env := env w; sources := sources w; logs := logs w ++ entries;
     random_choosers := random_choosers w;
     sticky_choosers := sticky_choosers w |}.

Definition add_random (o : RandomPodChooser PodInterface) (w : World) : World :=
  {| env := env w; sources := sources w; logs := logs w;
     random_choosers := random_choosers w ++ [o];
     sticky_choosers := sticky_choosers w |}.

Definition emit (entry : LogEntry) : M () :=
  λ w, (Done (), add_logs [entry] w).

Definition logrus_Debugf (fmt : string) (a : list LogArg) : M () :=
  emit {| level := DebugLevel; format := fmt; args := a |}.

Definition logrus_Errorf (fmt : string) (a : list LogArg) : M () :=
  emit {| level := ErrorLevel; format := fmt; args := a |}.

Definition get_env : M Env := λ w, (Done (env w), w).

(** A call through the [PodInterface]: the world behind it moves on. *)
Definition invoke_List (c : PodInterface) (ctx : Context_)
    (opts : ListOptions) : M (result PodList) :=
  λ w, let '(r, e) := client_List c ctx opts (env w) in (Done r, set_env e w).

Definition call_List (client : option PodInterface) (ctx : Context_)
    (opts : ListOptions) : M (result PodList) :=
  c ← deref client;
  invoke_List c ctx opts.

(** [for _, x := range xs { s = body s x }] *)
Fixpoint for_range {A S} (xs : list A) (body : S → A → M S) (s : S) : M S :=
  match xs with
  | [] => mret s
  | x :: xs => s' ← body s x; for_range xs body s'
  end.

(** ** ListRunningPods *)

Definition less_by_name (a b : Pod) : bool := String.ltb (pod_Name a) (pod_Name b).

Definition app_label (d : Deployment) : LabelSelector :=
  {| MatchLabels := {[ "app" := Name (DeploymentMeta d) ]} |}.

Definition ListRunningPods (ctx : Context_) (client : option PodInterface)
    (depl : option Deployment) : M (list PodPtr * option error) :=
  d ← deref depl;
  let labelSelector := app_label d in
  match LabelSelectorAsSelector labelSelector with
  | Failure token => mret ([], Some (External token))
  | Ok selector =>
    let listOpts := {| ListLabelSelector := Selector_String selector |} in
    r ← call_List client ctx listOpts;
    match r with
    | Failure token => mret ([], Some (External token))
    | Ok podList =>
      (* runningPods holds addresses of slots of podList.Items *)
      runningPods ← for_range (Items podList) (λ runningPods pod,
        if decide (Phase (Status pod) = PodRunning) then
          _ ← logrus_Debugf "pod runnning: %q" [ArgString (pod_Name pod)];
          mret (runningPods ++ [pod])
        else mret runningPods) [];
      mret (Some <$> sort_Slice less_by_name runningPods, None)
    end
  end.

(** ** The store of chooser objects and of random sources *)

Definition load_random (pc : nat) : M (RandomPodChooser PodInterface) :=
  λ w, match random_choosers w !! pc with
       | Some o => (Done o, w)
       | None => (Panicked NilDereference, w)
       end.

Definition load_sticky (pc : nat) : M (StickyPodChooser PodInterface) :=
  λ w, match sticky_choosers w !! pc with
       | Some o => (Done o, w)
       | None => (Panicked NilDereference, w)
       end.

(** [&RandomPodChooser{...}]: a new object at a new address. *)
Definition new_random (o : RandomPodChooser PodInterface) : M nat :=
  λ w, (Done (length (random_choosers w)), add_random o w).

(** [src.Int63()] on a source that lives in the store: its state advances. *)
Definition shared_Int63 (src : SourceRef) : M Z :=
  λ w, let '(v, s') := Source_Int63 (sources w src) in (Done v, set_source src s' w).

(** [rand.NewSource(time.Now().Unix())] then one [Int63]: the source is a
    local of the call and is dropped with it. *)
Definition ephemeral_Int63 : M Z :=
  e ← get_env;
  mret (Source_Int63 (rand_NewSource (time_Now_Unix e))).1.

(** ** RandomPodChooser.ChoosePod *)

Definition Ret : Type := PodPtr * list PodPtr * option error.

Definition no_builder_pods : error := Errorf "no builder pods are running".

(** [return pods[n], append(pods[0:n], pods[n+1:]...), nil] *)
Definition return_chosen (pods : list PodPtr) (n : Z) : M Ret :=
  if decide (0 ≤ n < Z.of_nat (length pods))%Z then
    let i := Z.to_nat n in
    let '(others, backing) := append_cut pods i in
    let arr := match operand_order with
               | IndexBeforeCall => pods
               | CallBeforeIndex => backing
               end in
    mret (default None (arr !! i), others, None)
  else throw IndexOutOfRange.

Definition RandomPodChooser_ChoosePod (pc : nat) (ctx : Context_) : M Ret :=
  self ← load_random pc;
  '(pods, err) ← ListRunningPods ctx (RandomPodClient self) (RandomDeployment self);
  match err with
  | Some e => mret (None, [], Some e)
  | None =>
    if decide (length pods = 0) then mret (None, [], Some no_builder_pods)
    else
      self ← load_random pc;
      v ← match RandSource self with
          | Some randSource => shared_Int63 randSource
          | None => ephemeral_Int63
          end;
      let n := drawn_index v (length pods) in
      _ ← logrus_Debugf "RandomPodChooser.ChoosePod(): len(pods)=%d, n=%d"
            [ArgInt (Z.of_nat (length pods)); ArgInt n];
      return_chosen pods n
  end.

(** ** StickyPodChooser.ChoosePod *)

(** [make([]*corev1.Pod, n)] *)
Definition make_slice (n : Z) : M (list PodPtr) :=
  if decide (0 ≤ n)%Z then mret (replicate (Z.to_nat n) None)
  else throw MakeSliceLenOutOfRange.

(** [s[i] = x] *)
Definition store_at (s : list PodPtr) (i : nat) (x : PodPtr) : M (list PodPtr) :=
  if decide (i < length s) then mret (<[i := x]> s)
  else throw IndexOutOfRange.

Definition index_names (pods : list PodPtr)
    : M (list string * gmap string PodPtr) :=
  for_range pods (λ '(podNames, podMap) pod,
    p ← deref pod;
    mret (podNames ++ [pod_Name p], <[pod_Name p := pod]> podMap)) ([], ∅).

Definition collect_others (pods : list PodPtr) (chosenPod : PodPtr)
    (otherPods : list PodPtr) : M (list PodPtr * nat) :=
  for_range pods (λ '(otherPods, i) pod,
    p ← deref pod;
    c ← deref chosenPod;
    if decide (pod_Name p = pod_Name c) then mret (otherPods, i)
    else
      otherPods ← store_at otherPods i pod;
      mret (otherPods, S i)) (otherPods, 0).

Definition StickyPodChooser_ChoosePod (pc : nat) (ctx : Context_) : M Ret :=
  self ← load_sticky pc;
  '(pods, err) ← ListRunningPods ctx (StickyPodClient self) (StickyDeployment self);
  match err with
  | Some e => mret (None, [], Some e)
  | None =>
    '(podNames, podMap) ← index_names pods;
    self ← load_sticky pc;
    match hashring_GetNode podNames (Key self) with
    | None =>
      (* NOTREACHED *)
      _ ← logrus_Errorf "no pod found for key %q" [ArgString (Key self)];
      self ← load_sticky pc;
      rpc ← new_random {| RandSource := None;
                          RandomPodClient := StickyPodClient self;
                          RandomDeployment := StickyDeployment self |};
      RandomPodChooser_ChoosePod rpc ctx
    | Some chosen =>
      let chosenPod : PodPtr := default None (podMap !! chosen) in
      otherPods ← make_slice (Z.of_nat (length pods) - 1);
      '(otherPods, _) ← collect_others pods chosenPod otherPods;
      mret (chosenPod, otherPods, None)
    end
  end.

(** ** The interface PodChooser

    [ChoosePod] returns the selected pod, and zero or more other unselected
    pods.  The receiver is the address of the chooser object. *)
Class PodChooser (T : Type) := ChoosePod : nat → Context_ → M Ret.

Local Instance RandomPodChooser_PodChooser
    : PodChooser (RandomPodChooser PodInterface) :=
  RandomPodChooser_ChoosePod.

Local Instance StickyPodChooser_PodChooser
    : PodChooser (StickyPodChooser PodInterface) :=
  StickyPodChooser_ChoosePod.

(** ** Vocabulary of the statements *)

(** The filter of [ListRunningPods]. *)
Definition running (items : list Pod) : list Pod :=
  filter (λ pod, Phase (Status pod) = PodRunning) items.

(** The debug records that the filter leaves behind. *)
Definition running_entries (items : list Pod) : list LogEntry :=
  (λ pod, {| level := DebugLevel; format := "pod runnning: %q";
             args := [ArgString (pod_Name pod)] |}) <$> running items.

(** The replica set that discovery makes of a list answer. *)
Definition discovered (podList : PodList) : list Pod :=
  sort_Slice less_by_name (running (Items podList)).

(** In world [w] the list call for deployment [depl] through [client] is
    answered by [r] and leaves the environment [e']. *)
Definition lists (client : option PodInterface) (depl : option Deployment)
    (ctx : Context_) (w : World) (r : result PodList) (e' : Env) : Prop :=
  ∃ c d selector,
    client = Some c ∧ depl = Some d ∧
    LabelSelectorAsSelector (app_label d) = Ok selector ∧
    client_List c ctx {| ListLabelSelector := Selector_String selector |} (env w)
      = (r, e').

(** The world after a successful discovery. *)
Definition after_discovery (podList : PodList) (e' : Env) (w : World) : World :=
  add_logs (running_entries (Items podList)) (set_env e' w).

(** The value that [rnd.Int63()] hands out in world [w], for the source of a
    chooser, and the world it leaves. *)
Definition source_value (randSource : option SourceRef) (w : World) : Z :=
  match randSource with
  | Some src => (Source_Int63 (sources w src)).1
  | None => (Source_Int63 (rand_NewSource (time_Now_Unix (env w)))).1
  end.

Definition after_draw (randSource : option SourceRef) (w : World) : World :=
  match randSource with
  | Some src => set_source src (Source_Int63 (sources w src)).2 w
  | None => w
  end.

Definition drawn_entry (len : nat) (n : Z) : LogEntry :=
  {| level := DebugLevel;
     format := "RandomPodChooser.ChoosePod(): len(pods)=%d, n=%d";
     args := [ArgInt (Z.of_nat len); ArgInt n] |}.

Definition no_pod_found_entry (key : string) : LogEntry :=
  {| level := ErrorLevel; format := "no pod found for key %q";
     args := [ArgString key] |}.

(** The chooser that the sticky policy falls back to. *)
Definition fallback_chooser (self : StickyPodChooser PodInterface)
    : RandomPodChooser PodInterface :=
  {| RandSource := None;
     RandomPodClient := StickyPodClient self;
     RandomDeployment := StickyDeployment self |}.

(** The map from names to pods that the sticky policy builds: a later pod
    replaces an earlier one of the same name. *)
Definition pod_index (pods : list Pod) : gmap string PodPtr :=
  foldl (λ podMap pod, <[pod_Name pod := Some pod]> podMap) ∅ pods.

Definition named (name : string) (pods : list Pod) : list Pod :=
  filter (λ pod, pod_Name pod = name) pods.

Definition not_named (name : string) (pods : list Pod) : list Pod :=
  filter (λ pod, pod_Name pod ≠ name) pods.

(** ** Frame conditions on the store of chooser objects *)

(** [m] writes no chooser object and makes none. *)
Definition keeps_choosers {A} (m : M A) : Prop :=
  ∀ w, random_choosers (m w).2 = random_choosers w ∧
       sticky_choosers (m w).2 = sticky_choosers w.

(** [m] writes no chooser object; it may make new random choosers. *)
Definition extends_choosers {A} (m : M A) : Prop :=
  ∀ w, (random_choosers w `prefix_of` random_choosers (m w).2) ∧
       sticky_choosers (m w).2 = sticky_choosers w.

End podchooser.

(** ** What a selection is *)



(** What [ChoosePod] may return: no pod, no others and an error; or a pod,
    others and no error. *)
Definition well_formed (r : PodPtr * list PodPtr * option error) : Prop :=
  (∃ e, r = (None, [], Some e)) ∨ (∃ pod others, r = (Some pod, others, None)).

(** The number of values of the source, out of the [2 ^ 63] that [Int63] may
    hand out, for which index [i] is drawn from [len] replicas. *)
Definition index_count (len : nat) (i : Z) : nat :=
  length (filter (λ v, drawn_index v len = i) (seqZ 0 (2 ^ 63))).

(** The ring answers by the set of its nodes alone. *)
Definition ring_by_membership (GetNode : list string → string → option string)
    : Prop :=
  ∀ nodes1 nodes2 key,
    (∀ node, node ∈ nodes1 ↔ node ∈ nodes2) →
    GetNode nodes1 key = GetNode nodes2 key.

(** Every index of [len] replicas is drawn for equally many values. *)
Definition uniform_draw (len : nat) : Prop :=
  ∀ i j, (0 ≤ i < Z.of_nat len)%Z → (0 ≤ j < Z.of_nat len)%Z →
         index_count len i = index_count len j.

(** ** A concrete instance: scripted cluster, counter source, toy ring *)

Module Demo.

(** The cluster answers the list calls from a script, one answer per call;
    the clock ticks at every call. *)
Record Env := { script : list (result PodList); clock : Z }.

Definition client_List (_ : unit) (_ : unit) (_ : ListOptions) (e : Env)
    : result PodList * Env :=
  match script e with
  | r :: rest => (r, {| script := rest; clock := clock e + 1 |})
  | [] => (Failure "connection refused", e)
  end.

Definition LabelSelectorAsSelector (ls : LabelSelector) : result string :=
  Ok ("app=" +:+ default "" (MatchLabels ls !! "app")).

Definition Selector_String (s : string) : string := s.

Definition sort_Slice (less : Pod → Pod → bool) : list Pod → list Pod :=
  merge_sort (in_order less).

(** A ring that places the key by its length. *)
Definition hashring_GetNode (nodes : list string) (key : string) : option string :=
  nodes !! (String.length key `mod` length nodes).

Definition time_Now_Unix (e : Env) : Z := clock e.

(** A source that counts. *)
Definition rand_NewSource (seed : Z) : Z := seed.
Definition Source_Int63 (s : Z) : Z * Z := ((s mod 2 ^ 63)%Z, (s + 1)%Z).

Definition pod (name phase : string) : Pod :=
  {| PodMeta := {| Name := name; UID := "uid-" +:+ name |};
     Status := {| Phase := phase |} |}.

Definition builder : Deployment :=
  {| DeploymentMeta := {| Name := "buildkit"; UID := "d-1" |} |}.

Definition random_chooser (src : option SourceRef) : RandomPodChooser unit :=
  {| RandSource := src; RandomPodClient := Some (); RandomDeployment := Some builder |}.

Definition sticky_chooser (key : string) : StickyPodChooser unit :=
  {| Key := key; StickyPodClient := Some (); StickyDeployment := Some builder |}.

(** One random chooser with the injected source 0 at address 0, one without
    a source at address 1, and one sticky chooser at address 0. *)
Definition world (answers : list (result PodList)) (seed : Z) (key : string)
    : @World Env unit Z :=
  {| env := {| script := answers; clock := 1600000000 |};
     sources := λ _, seed;
     logs := [];
     random_choosers := [random_chooser (Some 0); random_chooser None];
     sticky_choosers := [sticky_chooser key] |}.

(** Two running pods, one pending. *)
Definition three : PodList :=
  {| Items := [pod "w-2" PodRunning; pod "w-3" PodPending; pod "w-1" PodRunning] |}.

(** The same running pods, listed otherwise. *)
Definition three_again : PodList :=
  {| Items := [pod "w-1" PodRunning; pod "w-0" PodFailed; pod "w-2" PodRunning] |}.

(** No running pod. *)
Definition idle : PodList := {| Items := [pod "w-3" PodPending] |}.

(** Two running pods that bear one name, and a third. *)
Definition twin (uid : string) : Pod :=
  {| PodMeta := {| Name := "w-1"; UID := uid |};
     Status := {| Phase := PodRunning |} |}.

Definition twins : PodList :=
  {| Items := [twin "uid-a"; twin "uid-b"; pod "w-2" PodRunning] |}.

Definition abc : PodList :=
  {| Items := [pod "a" PodRunning; pod "b" PodRunning; pod "c" PodRunning] |}.

Definition ListRunningPods :=
  ListRunningPods (Env:=Env) (SrcState:=Z) client_List LabelSelectorAsSelector
    Selector_String sort_Slice.

Definition discovered : PodList → list Pod := discovered sort_Slice.

Definition RandomPodChooser_ChoosePod (order : OperandOrder) :=
  RandomPodChooser_ChoosePod client_List LabelSelectorAsSelector Selector_String
    sort_Slice time_Now_Unix rand_NewSource Source_Int63 order.

Definition StickyPodChooser_ChoosePod (order : OperandOrder) :=
  StickyPodChooser_ChoosePod client_List LabelSelectorAsSelector Selector_String
    sort_Slice hashring_GetNode time_Now_Unix rand_NewSource Source_Int63 order.

End Demo.

(** ** Further instances: a selector library that checks the label value, a
    ring that names a node outside its list, choosers without a deployment *)

Module Edge.

(** A label value has 63 characters at most. *)
Definition LabelSelectorAsSelector (ls : LabelSelector) : result string :=
  let value := default "" (MatchLabels ls !! "app") in
  if decide (String.length value ≤ 63) then Ok ("app=" +:+ value)
  else Failure "must be no more than 63 characters".

(** A deployment whose name is a valid object name and no valid label value. *)
Definition long_named : Deployment :=
  {| DeploymentMeta :=
       {| Name := "buildkit-for-the-team-that-likes-very-long-and-descriptive-names";
          UID := "d-2" |} |}.


(** A source that hands out -1 for ever, and a clock that stands still. *)
Definition stuck_Int63 (s : Z) : Z * Z := ((-1)%Z, s).
Definition still_Now_Unix (e : Demo.Env) : Z := 0%Z.

(** One random chooser with the injected source 0 and one sticky chooser
    with the key [k], both for the deployment [depl] through [client]. *)
Definition world (client : option unit) (depl : option Deployment)
    (answers : list (result PodList)) (seed : Z) : @World Demo.Env unit Z :=
  {| env := {| Demo.script := answers; Demo.clock := 1600000000 |};
     sources := λ _, seed;
     logs := [];
     random_choosers :=
       [{| RandSource := Some 0; RandomPodClient := client;
           RandomDeployment := depl |}];
     sticky_choosers :=
       [{| Key := "k"; StickyPodClient := client; StickyDeployment := depl |}] |}.

(** One running pod, one pending. *)
Definition solo : PodList :=
  {| Items := [Demo.pod "w-3" PodPending; Demo.pod "w-1" PodRunning] |}.


(** The sticky chooser with the stuck source and the still clock. *)
Definition Stuck_ChoosePod (order : OperandOrder) :=
  StickyPodChooser_ChoosePod Demo.client_List Demo.LabelSelectorAsSelector
    Demo.Selector_String Demo.sort_Slice Demo.hashring_GetNode
    still_Now_Unix Demo.rand_NewSource stuck_Int63 order.

Definition ListRunningPods :=
  ListRunningPods (Env:=Demo.Env) (SrcState:=Z) Demo.client_List
    LabelSelectorAsSelector Demo.Selector_String Demo.sort_Slice.

Definition RandomPodChooser_ChoosePod (order : OperandOrder) :=
  RandomPodChooser_ChoosePod Demo.client_List LabelSelectorAsSelector
    Demo.Selector_String Demo.sort_Slice Demo.time_Now_Unix Demo.rand_NewSource
    Demo.Source_Int63 order.

Definition StickyPodChooser_ChoosePod (order : OperandOrder) :=
  StickyPodChooser_ChoosePod Demo.client_List LabelSelectorAsSelector
    Demo.Selector_String Demo.sort_Slice Demo.hashring_GetNode
    Demo.time_Now_Unix Demo.rand_NewSource Demo.Source_Int63 order.

End Edge.

(** * Properties *)

Lemma String_ltb_leb (a b : string) : String.ltb a b = negb (String.leb b a).
Proof.
  unfold String.ltb, String.leb. rewrite (String.compare_antisym a b).
  by destruct (String.compare b a).
Qed.

Lemma String_le_leb (a b : string) : String.le a b ↔ String.leb a b = true.
Proof. unfold String.le. apply Is_true_true. Qed.

Lemma less_by_name_swo : strict_weak_order less_by_name.
Proof.
  unfold less_by_name. split.
  - intros a. rewrite String_ltb_leb, negb_false_iff, <-String_le_leb. done.
  - intros a b c. rewrite !String_ltb_leb, !negb_true_iff. intros Hab Hbc.
    apply not_true_iff_false. rewrite <-String_le_leb. intros Hca.
    apply not_true_iff_false in Hab, Hbc. rewrite <-String_le_leb in Hab, Hbc.
    destruct (total String.le (pod_Name a) (pod_Name b)) as [H|H]; [|done].
    apply Hbc. by etrans.
  - intros a b c. rewrite !String_ltb_leb, !negb_false_iff, <-!String_le_leb.
    intros Hab Hbc. by etrans.
Qed.

Lemma in_order_by_name (a b : Pod) :
  in_order less_by_name a b ↔ String.leb (pod_Name a) (pod_Name b) = true.
Proof.
  unfold in_order, less_by_name. rewrite String_ltb_leb, negb_false_iff. done.
Qed.

(** ** Selections of a list *)


Lemma absent_name_filters name (pods : list Pod) :
  name ∉ pod_Name <$> pods → not_named name pods = pods ∧ named name pods = [].
Proof.
  unfold named, not_named. induction pods as [|pod pods IH]; [done|].
  rewrite fmap_cons, not_elem_of_cons. intros [Hne Hnot].
  destruct (IH Hnot) as [IH1 IH2].
  rewrite !filter_cons. rewrite decide_True by done. rewrite decide_False by done.
  by rewrite IH1, IH2.
Qed.

Lemma distinct_names_split (pods : list Pod) n c :
  NoDup (pod_Name <$> pods) → pods !! n = Some c →
  not_named (pod_Name c) pods = delete n pods ∧ named (pod_Name c) pods = [c].
Proof.
  revert n. induction pods as [|pod pods IH]; intros n Hnd Hn; [done|].
  rewrite fmap_cons in Hnd. apply NoDup_cons in Hnd as [Hnot Hnd].
  unfold named, not_named in *. rewrite !filter_cons.
  destruct n as [|n]; simpl in Hn.
  - injection Hn as ->. destruct (absent_name_filters _ _ Hnot) as [H1 H2].
    unfold named, not_named in *.
    rewrite decide_False by tauto. rewrite decide_True by done.
    by rewrite H1, H2.
  - destruct (IH n Hnd Hn) as [IH1 IH2].
    assert (pod_Name pod ≠ pod_Name c) as Hne.
    { intros Heq. apply Hnot. rewrite Heq. apply list_elem_of_fmap.
      exists c. split; [done|]. by eapply list_elem_of_lookup_2. }
    rewrite decide_True by done. rewrite decide_False by done.
    by rewrite IH1, IH2.
Qed.

Lemma named_member (pods : list Pod) name c :
  last (named name pods) = Some c → c ∈ pods ∧ pod_Name c = name.
Proof.
  intros Hlast%last_Some_elem_of. unfold named in Hlast.
  apply list_elem_of_filter in Hlast. tauto.
Qed.

Lemma named_not_named_length (pods : list Pod) name :
  length (named name pods) + length (not_named name pods) = length pods.
Proof.
  unfold named, not_named. induction pods as [|pod pods IH]; [done|].
  rewrite !filter_cons. repeat case_decide; simpl; try lia; done.
Qed.

(** ** Arithmetic of the draw *)

Lemma Rand_Int_range v : (0 ≤ Rand_Int v < 2 ^ 63)%Z.
Proof.
  unfold Rand_Int. rewrite Z.shiftl_mul_pow2, Z.shiftr_div_pow2 by lia.
  pose proof (Z.mod_pos_bound (v mod 2 ^ 64 * 2 ^ 1) (2 ^ 64)) as H.
  split; [apply Z.div_pos; lia|]. apply Z.div_lt_upper_bound; lia.
Qed.

Lemma Rand_Int_id v : (0 ≤ v < 2 ^ 63)%Z → Rand_Int v = v.
Proof.
  intros Hv. unfold Rand_Int.
  rewrite Z.shiftl_mul_pow2, Z.shiftr_div_pow2 by lia.
  rewrite (Z.mod_small v) by lia. rewrite Z.mod_small by lia.
  apply Z.div_mul. lia.
Qed.

Lemma drawn_index_mod v len :
  drawn_index v len = (Rand_Int v mod Z.of_nat len)%Z.
Proof.
  unfold drawn_index. pose proof (Rand_Int_range v).
  destruct len as [|len].
  - simpl. by rewrite Z.rem_0_r_ext, Z.mod_0_r.
  - apply Z.rem_mod_nonneg; lia.
Qed.

Lemma drawn_index_range v len :
  0 < len → (0 ≤ drawn_index v len < Z.of_nat len)%Z.
Proof. intros Hlen. rewrite drawn_index_mod. apply Z.mod_pos_bound. lia. Qed.

Lemma filter_ext_elem {A} (P Q : A → Prop) `{!∀ x, Decision (P x)}
    `{!∀ x, Decision (Q x)} (l : list A) :
  (∀ x, x ∈ l → P x ↔ Q x) → filter P l = filter Q l.
Proof.
  induction l as [|a l IH]; intros HPQ; [done|].
  rewrite !filter_cons.
  rewrite IH by (intros x Hx; apply HPQ; by right).
  pose proof (HPQ a (list_elem_of_here _ _)) as Ha.
  destruct (decide (P a)), (decide (Q a)); tauto || done.
Qed.

Lemma succ_div_mod (M N : Z) :
  (0 < N → 0 ≤ M →
   if decide (M mod N + 1 < N)
   then (M + 1) / N = M / N ∧ (M + 1) mod N = M mod N + 1
   else (M + 1) / N = M / N + 1 ∧ (M + 1) mod N = 0)%Z.
Proof.
  intros HN HM.
  pose proof (Z.div_mod M N ltac:(lia)) as Hdm.
  pose proof (Z.mod_pos_bound M N HN) as Hr.
  case_decide as Hlt.
  - assert ((M + 1) / N = M / N)%Z as Hq
      by (symmetry; apply (Z.div_unique _ _ _ (M mod N + 1)); lia).
    split; [done|].
    symmetry. apply (Z.mod_unique _ _ (M / N)); lia.
  - assert ((M + 1) / N = M / N + 1)%Z as Hq
      by (symmetry; apply (Z.div_unique _ _ _ 0); lia).
    split; [done|].
    symmetry. apply (Z.mod_unique _ _ (M / N + 1)); lia.
Qed.

(** How many of [0 .. M-1] leave the remainder [i] modulo [N]. *)
Lemma count_residue (N i M : Z) :
  (0 < N → 0 ≤ i < N → 0 ≤ M →
   Z.of_nat (length (filter (λ v, v mod N = i) (seqZ 0 M)))
   = M / N + (if decide (i < M mod N) then 1 else 0))%Z.
Proof.
  intros HN Hi HM. revert M HM. apply natlike_ind.
  - rewrite seqZ_nil by lia. rewrite Z.div_0_l, Z.mod_0_l by lia.
    rewrite decide_False by lia. done.
  - intros M HM IH. unfold Z.succ.
    rewrite seqZ_app by lia. rewrite filter_app, length_app, Nat2Z.inj_add, IH.
    replace (seqZ (0 + M) 1) with [M] by (unfold seqZ; simpl; f_equal; lia).
    pose proof (succ_div_mod M N HN HM) as Hs.
    pose proof (Z.mod_pos_bound M N HN) as Hr.
    rewrite filter_cons, filter_nil.
    destruct (decide (M mod N + 1 < N)%Z) as [Hlt|Hlt]; destruct Hs as [-> ->];
      repeat case_decide; simpl; lia.
Qed.

Lemma index_count_closed (len : nat) (i : Z) :
  0 < len → (0 ≤ i < Z.of_nat len)%Z →
  (Z.of_nat (index_count len i)
   = 2 ^ 63 / Z.of_nat len
     + (if decide (i < 2 ^ 63 mod Z.of_nat len) then 1 else 0))%Z.
Proof.
  intros Hlen Hi. unfold index_count.
  rewrite (filter_ext_elem _ (λ v, v mod Z.of_nat len = i)%Z).
  - apply count_residue; [lia|done|]. apply Z.pow_nonneg. lia.
  - intros v Hv%elem_of_seqZ.
    rewrite drawn_index_mod, Rand_Int_id; [done|]. by rewrite Z.add_0_l in Hv.
Qed.

Lemma index_count_spread (len : nat) (i j : Z) :
  0 < len → (0 ≤ i < Z.of_nat len)%Z → (0 ≤ j < Z.of_nat len)%Z →
  (Z.of_nat (index_count len i) - Z.of_nat (index_count len j) ≤ 1)%Z.
Proof.
  intros Hlen Hi Hj. rewrite !index_count_closed by done.
  repeat case_decide; lia.
Qed.

Lemma index_count_3 : index_count 3 0 ≠ index_count 3 2.
Proof.
  intros H. apply (f_equal Z.of_nat) in H.
  rewrite !index_count_closed in H by lia.
  vm_compute in H. discriminate.
Qed.

(** * The package against its environment *)

Section correctness.
Context {Env PodInterface Context_ Selector SrcState : Type}.
Context (client_List :
  PodInterface → Context_ → ListOptions → Env → result PodList * Env).
Context (LabelSelectorAsSelector : LabelSelector → result Selector).
Context (Selector_String : Selector → string).
Context (sort_Slice : (Pod → Pod → bool) → list Pod → list Pod).
Context (hashring_GetNode : list string → string → option string).
Context (time_Now_Unix : Env → Z).
Context (rand_NewSource : Z → SrcState).
Context (Source_Int63 : SrcState → Z * SrcState).
Context (operand_order : OperandOrder).

Ltac unfold_ListRunningPods := unfold ListRunningPods.
Ltac unfold_lists := unfold lists.

Local Abbreviation World := (@World Env PodInterface SrcState).
Local Abbreviation M := (@M Env PodInterface SrcState).
Local Abbreviation ListRunningPods :=
  (ListRunningPods (SrcState:=SrcState) client_List LabelSelectorAsSelector
     Selector_String sort_Slice).
Local Abbreviation Random_ChoosePod :=
  (RandomPodChooser_ChoosePod client_List LabelSelectorAsSelector Selector_String
     sort_Slice time_Now_Unix rand_NewSource Source_Int63 operand_order).
Local Abbreviation Sticky_ChoosePod :=
  (StickyPodChooser_ChoosePod client_List LabelSelectorAsSelector Selector_String
     sort_Slice hashring_GetNode time_Now_Unix rand_NewSource Source_Int63
     operand_order).
Local Abbreviation lists :=
  (lists (SrcState:=SrcState) client_List LabelSelectorAsSelector Selector_String).
Local Abbreviation discovered := (discovered sort_Slice).

Ltac run :=
  repeat progress
    (simpl;
     cbv beta delta [mbind M_bind mret M_ret throw deref emit logrus_Debugf
                     logrus_Errorf get_env];
     simpl).

Lemma add_logs_nil (w : World) : add_logs [] w = w.
Proof. destruct w. unfold add_logs. simpl. by rewrite app_nil_r. Qed.

Lemma add_logs_app (l1 l2 : list LogEntry) (w : World) :
  add_logs l2 (add_logs l1 w) = add_logs (l1 ++ l2) w.
Proof. unfold add_logs. simpl. by rewrite app_assoc. Qed.

Lemma scan_running (items acc : list Pod) (w : World) :
  for_range items (λ runningPods pod,
      if decide (Phase (Status pod) = PodRunning) then
        _ ← logrus_Debugf "pod runnning: %q" [ArgString (pod_Name pod)];
        mret (runningPods ++ [pod])
      else mret runningPods) acc w
  = (Done (acc ++ running items), add_logs (running_entries items) w).
Proof.
  revert acc w. induction items as [|pod items IH]; intros acc w.
  - unfold running_entries, running. run. by rewrite app_nil_r, add_logs_nil.
  - run. unfold running_entries, running. rewrite filter_cons.
    case_decide; run; rewrite IH; [|done].
    rewrite add_logs_app, <-app_assoc. done.
Qed.

Lemma ListRunningPods_ok client depl ctx (w : World) podList e' :
  lists client depl ctx w (Ok podList) e' →
  ListRunningPods ctx client depl w
  = (Done (Some <$> discovered podList, None), after_discovery podList e' w).
Proof.
  intros (c & d & selector & -> & -> & Hsel & Hlist).
  unfold_ListRunningPods. unfold call_List, invoke_List. run.
  rewrite Hsel. run. rewrite Hlist. rewrite scan_running. done.
Qed.

Lemma ListRunningPods_fail client depl ctx (w : World) err e' :
  lists client depl ctx w (Failure err) e' →
  ListRunningPods ctx client depl w = (Done ([], Some (External err)), set_env e' w).
Proof.
  intros (c & d & selector & -> & -> & Hsel & Hlist).
  unfold_ListRunningPods. unfold call_List, invoke_List. run.
  rewrite Hsel. run. by rewrite Hlist.
Qed.

(** Contract of [sort.Slice]. *)
Hypothesis sort_Slice_perm : ∀ less l, sort_Slice less l ≡ₚ l.
Hypothesis sort_Slice_sorted : ∀ less l,
  strict_weak_order less → StronglySorted (in_order less) (sort_Slice less l).

Lemma discovered_perm podList : discovered podList ≡ₚ running (Items podList).
Proof. apply sort_Slice_perm. Qed.

Lemma discovered_sorted podList :
  StronglySorted (λ a b, String.leb (pod_Name a) (pod_Name b) = true)
    (discovered podList).
Proof.
  pose proof (sort_Slice_sorted less_by_name (running (Items podList))
                less_by_name_swo) as H.
  fold (discovered podList) in H.
  induction H as [|a l Hl IH Ha]; constructor; [done|].
  eapply Forall_impl; [exact Ha|]. intros b. by rewrite in_order_by_name.
Qed.

(** C3.  When the list call succeeds, [ListRunningPods] returns, without an
    error, the pods of the answer whose phase is [Running] and no others,
    in ascending order of their names; when none runs, it returns the empty
    slice. *)
Theorem ListRunningPods_running_sorted client depl ctx (w : World) podList e' :
  lists client depl ctx w (Ok podList) e' →
  ∃ pods : list Pod,
    (ListRunningPods ctx client depl w).1 = Done (Some <$> pods, None) ∧
    pods ≡ₚ running (Items podList) ∧
    (∀ pod, pod ∈ pods ↔ pod ∈ Items podList ∧ Phase (Status pod) = PodRunning) ∧
    StronglySorted (λ a b, String.leb (pod_Name a) (pod_Name b) = true) pods ∧
    (running (Items podList) = [] → pods = []).
Proof.
  intros Hl. exists (discovered podList).
  rewrite (ListRunningPods_ok _ _ _ _ _ _ Hl). simpl.
  pose proof (discovered_perm podList) as Hp.
  split_and!; [done|done| |apply discovered_sorted|].
  - intros pod. rewrite Hp. unfold running. rewrite list_elem_of_filter.
    split; intros [? ?]; by split.
  - intros Hnil. rewrite Hnil in Hp. by apply Permutation_nil_r.
Qed.

(** ** The random policy *)

Local Abbreviation source_value :=
  (source_value (PodInterface:=PodInterface) time_Now_Unix rand_NewSource Source_Int63).
Local Abbreviation after_draw :=
  (after_draw (Env:=Env) (PodInterface:=PodInterface) Source_Int63).

Lemma draw_run randSource (w : World) :
  match randSource with
  | Some randSource => shared_Int63 Source_Int63 randSource
  | None => ephemeral_Int63 time_Now_Unix rand_NewSource Source_Int63
  end w = (Done (source_value randSource w), after_draw randSource w).
Proof.
  destruct randSource as [src|]; simpl.
  - unfold shared_Int63. by destruct (Source_Int63 (sources w src)).
  - unfold ephemeral_Int63. by run.
Qed.

Lemma append_cut_delete {A} (l : list A) i :
  i < length l →
  append_cut l i = (delete i l, delete i l ++ drop (length l - 1) l).
Proof.
  intros Hi. unfold append_cut. rewrite <-delete_take_drop.
  rewrite length_delete by (by apply lookup_lt_is_Some_2). done.
Qed.

Lemma return_chosen_run (pods : list Pod) n (w : World) :
  (0 ≤ n < Z.of_nat (length pods))%Z →
  return_chosen operand_order (Some <$> pods) n w
  = (Done (match operand_order with
           | IndexBeforeCall => pods !! Z.to_nat n
           | CallBeforeIndex =>
               if decide (S (Z.to_nat n) < length pods)
               then pods !! S (Z.to_nat n) else pods !! Z.to_nat n
           end,
           Some <$> delete (Z.to_nat n) pods, None), w).
Proof.
  intros Hn. unfold return_chosen. rewrite length_fmap.
  rewrite decide_True by done.
  assert (Z.to_nat n < length pods) as Hi by lia.
  rewrite append_cut_delete by (by rewrite length_fmap).
  run. rewrite <-list_fmap_delete. do 3 f_equal.
  destruct operand_order.
  - rewrite list_lookup_fmap. by destruct (pods !! Z.to_nat n).
  - rewrite length_fmap, <-fmap_drop, <-fmap_app, list_lookup_fmap.
    case_decide as Hlast.
    + rewrite lookup_app_l by (rewrite length_delete; [lia|by apply lookup_lt_is_Some_2]).
      rewrite list_lookup_delete_ge by lia.
      by destruct (pods !! S (Z.to_nat n)).
    + rewrite lookup_app_r by (rewrite length_delete; [lia|by apply lookup_lt_is_Some_2]).
      rewrite length_delete by (by apply lookup_lt_is_Some_2).
      rewrite lookup_drop.
      replace (length pods - 1 + (Z.to_nat n - (length pods - 1))) with (Z.to_nat n) by lia.
      by destruct (pods !! Z.to_nat n).
Qed.

(** Read after the call, the index expression yields the pod that moved
    into slot [n]: a pod that the call also returns among the others. *)
Lemma return_chosen_after_call (pods : list Pod) n (w : World) :
  operand_order = CallBeforeIndex →
  (0 ≤ n)%Z → S (Z.to_nat n) < length pods →
  ∃ c, pods !! S (Z.to_nat n) = Some c ∧
       c ∈ delete (Z.to_nat n) pods ∧
       return_chosen operand_order (Some <$> pods) n w
       = (Done (Some c, Some <$> delete (Z.to_nat n) pods, None), w).
Proof.
  intros Horder Hn HS.
  destruct (lookup_lt_is_Some_2 pods _ HS) as [c Hc].
  exists c. split_and!; [done| |].
  - apply list_elem_of_lookup. exists (Z.to_nat n).
    by rewrite list_lookup_delete_ge.
  - rewrite return_chosen_run by lia. rewrite Horder.
    by rewrite decide_True, Hc.
Qed.

Lemma Random_ChoosePod_ok pc self ctx (w : World) podList e' :
  random_choosers w !! pc = Some self →
  lists (RandomPodClient self) (RandomDeployment self) ctx w (Ok podList) e' →
  discovered podList ≠ [] →
  Random_ChoosePod pc ctx w
  = (let pods := discovered podList in
     let w1 := after_discovery podList e' w in
     let n := drawn_index (source_value (RandSource self) w1) (length pods) in
     return_chosen operand_order (Some <$> pods) n
       (add_logs [drawn_entry (length pods) n] (after_draw (RandSource self) w1))).
Proof.
  intros Hpc Hl Hne. unfold RandomPodChooser_ChoosePod, load_random. run.
  rewrite Hpc. rewrite (ListRunningPods_ok _ _ _ _ _ _ Hl).
  rewrite length_fmap. rewrite decide_False by (by destruct (discovered podList)).
  unfold after_discovery at 1. simpl. rewrite Hpc.
  rewrite draw_run. done.
Qed.

Lemma Random_ChoosePod_empty pc self ctx (w : World) podList e' :
  random_choosers w !! pc = Some self →
  lists (RandomPodClient self) (RandomDeployment self) ctx w (Ok podList) e' →
  discovered podList = [] →
  Random_ChoosePod pc ctx w
  = (Done (None, [], Some no_builder_pods), after_discovery podList e' w).
Proof.
  intros Hpc Hl Hnil. unfold RandomPodChooser_ChoosePod, load_random. run.
  rewrite Hpc. rewrite (ListRunningPods_ok _ _ _ _ _ _ Hl).
  rewrite Hnil. done.
Qed.

Lemma Random_ChoosePod_fail pc self ctx (w : World) err e' :
  random_choosers w !! pc = Some self →
  lists (RandomPodClient self) (RandomDeployment self) ctx w (Failure err) e' →
  Random_ChoosePod pc ctx w = (Done (None, [], Some (External err)), set_env e' w).
Proof.
  intros Hpc Hl. unfold RandomPodChooser_ChoosePod, load_random. run.
  rewrite Hpc. by rewrite (ListRunningPods_fail _ _ _ _ _ _ Hl).
Qed.


(** With a client, a deployment and a selector, the random chooser returns;
    it does not panic. *)
Lemma Random_ChoosePod_done pc self ctx (w : World) c d selector :
  random_choosers w !! pc = Some self →
  RandomPodClient self = Some c →
  RandomDeployment self = Some d →
  LabelSelectorAsSelector (app_label d) = Ok selector →
  ∃ r, (Random_ChoosePod pc ctx w).1 = Done r.
Proof.
  intros Hpc Hc Hd Hsel.
  destruct (client_List c ctx {| ListLabelSelector := Selector_String selector |}
              (env w)) as [[podList|err] e'] eqn:Hlist.
  - assert (lists (RandomPodClient self) (RandomDeployment self) ctx w
              (Ok podList) e') as Hl by (by exists c, d, selector).
    destruct (decide (discovered podList = [])) as [Hnil|Hne].
    + rewrite (Random_ChoosePod_empty _ _ _ _ _ _ Hpc Hl Hnil). by eexists.
    + rewrite (Random_ChoosePod_ok _ _ _ _ _ _ Hpc Hl Hne). simpl.
      rewrite return_chosen_run.
      * by eexists.
      * apply drawn_index_range. destruct (discovered podList); [done|simpl; lia].
  - assert (lists (RandomPodClient self) (RandomDeployment self) ctx w
              (Failure err) e') as Hl by (by exists c, d, selector).
    rewrite (Random_ChoosePod_fail _ _ _ _ _ _ Hpc Hl). by eexists.
Qed.

(** ** The sticky policy *)

Lemma index_names_run_from (pods : list Pod) names (podMap : gmap string PodPtr) (w : World) :
  for_range (Some <$> pods) (λ '(podNames, podMap) pod,
      p ← deref pod;
      mret (podNames ++ [pod_Name p], <[pod_Name p := pod]> podMap))
    (names, podMap) w
  = (Done (names ++ (pod_Name <$> pods),
           foldl (λ podMap pod, <[pod_Name pod := Some pod]> podMap) podMap pods), w).
Proof.
  revert names podMap. induction pods as [|pod pods IH]; intros names podMap.
  - run. by rewrite app_nil_r.
  - run. rewrite IH, <-app_assoc. done.
Qed.

Lemma index_names_run (pods : list Pod) (w : World) :
  index_names (Some <$> pods) w = (Done (pod_Name <$> pods, pod_index pods), w).
Proof. unfold index_names. by rewrite index_names_run_from. Qed.

Lemma pod_index_lookup_from (pods : list Pod) (podMap : gmap string PodPtr) name :
  foldl (λ podMap pod, <[pod_Name pod := Some pod]> podMap) podMap pods !! name
  = match last (named name pods) with
    | Some pod => Some (Some pod)
    | None => podMap !! name
    end.
Proof.
  revert podMap. unfold named.
  induction pods as [|pod pods IH]; intros podMap; [done|].
  simpl. rewrite IH, filter_cons. case_decide as Hname.
  - rewrite last_cons. destruct (last _); [done|].
    by rewrite <-Hname, lookup_insert_eq.
  - destruct (last _); [done|]. by rewrite lookup_insert_ne.
Qed.

Lemma pod_index_lookup (pods : list Pod) name :
  pod_index pods !! name = Some <$> last (named name pods).
Proof.
  unfold pod_index. rewrite pod_index_lookup_from, lookup_empty.
  by destruct (last _).
Qed.

Lemma named_last (pods : list Pod) name :
  name ∈ pod_Name <$> pods →
  ∃ pod, last (named name pods) = Some pod ∧ pod ∈ pods ∧ pod_Name pod = name.
Proof.
  intros (pod & -> & Hin)%list_elem_of_fmap.
  destruct (last (named (pod_Name pod) pods)) as [q|] eqn:Hlast.
  - exists q. split; [done|].
    apply last_Some_elem_of in Hlast. unfold named in Hlast.
    by apply list_elem_of_filter in Hlast as [? ?].
  - apply last_None in Hlast.
    assert (pod ∈ named (pod_Name pod) pods) as Hp.
    { unfold named. by apply list_elem_of_filter. }
    rewrite Hlast in Hp. by apply elem_of_nil in Hp.
Qed.

Lemma collect_others_run_from (pods pre : list Pod) (c : Pod) k (w : World) :
  length (not_named (pod_Name c) pods) ≤ k →
  for_range (Some <$> pods) (λ '(otherPods, i) pod,
      p ← deref pod;
      c ← deref (Some c);
      if decide (pod_Name p = pod_Name c) then mret (otherPods, i)
      else
        otherPods ← store_at otherPods i pod;
        mret (otherPods, S i))
    ((Some <$> pre) ++ replicate k None, length pre) w
  = (Done ((Some <$> pre ++ not_named (pod_Name c) pods)
             ++ replicate (k - length (not_named (pod_Name c) pods)) None,
           length pre + length (not_named (pod_Name c) pods)), w).
Proof.
  revert pre k. unfold not_named.
  induction pods as [|pod pods IH]; intros pre k Hk.
  - run. by rewrite app_nil_r, Nat.sub_0_r, Nat.add_0_r.
  - run. rewrite filter_cons in Hk |- *. case_decide as Hname.
    + rewrite decide_False by done. simpl in Hk.
      destruct k as [|k]; [lia|]. unfold store_at.
      rewrite decide_True by (rewrite length_app, length_fmap; simpl; lia).
      run. rewrite insert_app_r_alt by (by rewrite length_fmap).
      rewrite length_fmap, Nat.sub_diag. simpl.
      specialize (IH (pre ++ [pod]) k ltac:(lia)).
      rewrite fmap_app, <-app_assoc, length_app in IH. simpl in IH.
      replace (length pre + 1) with (S (length pre)) in IH by lia.
      etrans; [exact IH|]. rewrite <-app_assoc. simpl.
      do 3 f_equal. lia.
    + destruct (decide (pod_Name pod = pod_Name c)) as [_|Hne];
        [by apply IH|by destruct Hname].
Qed.

Lemma collect_others_run (pods : list Pod) (c : Pod) k (w : World) :
  length (not_named (pod_Name c) pods) ≤ k →
  collect_others (Some <$> pods) (Some c) (replicate k None) w
  = (Done ((Some <$> not_named (pod_Name c) pods)
             ++ replicate (k - length (not_named (pod_Name c) pods)) None,
           length (not_named (pod_Name c) pods)), w).
Proof.
  intros Hk. unfold collect_others.
  exact (collect_others_run_from pods [] c k w Hk).
Qed.



Lemma Sticky_ChoosePod_fail pc self ctx (w : World) err e' :
  sticky_choosers w !! pc = Some self →
  lists (StickyPodClient self) (StickyDeployment self) ctx w (Failure err) e' →
  Sticky_ChoosePod pc ctx w = (Done (None, [], Some (External err)), set_env e' w).
Proof.
  intros Hpc Hl. unfold StickyPodChooser_ChoosePod, load_sticky. run.
  rewrite Hpc. by rewrite (ListRunningPods_fail _ _ _ _ _ _ Hl).
Qed.

Lemma Sticky_ChoosePod_unresolved pc self ctx (w : World) podList e' :
  sticky_choosers w !! pc = Some self →
  lists (StickyPodClient self) (StickyDeployment self) ctx w (Ok podList) e' →
  hashring_GetNode (pod_Name <$> discovered podList) (Key self) = None →
  Sticky_ChoosePod pc ctx w
  = Random_ChoosePod (length (random_choosers w)) ctx
      (add_random (fallback_chooser self)
         (add_logs [no_pod_found_entry (Key self)]
            (after_discovery podList e' w))).
Proof.
  intros Hpc Hl Hring. unfold StickyPodChooser_ChoosePod, load_sticky. run.
  rewrite Hpc. rewrite (ListRunningPods_ok _ _ _ _ _ _ Hl).
  rewrite index_names_run. simpl. rewrite Hpc, Hring. run. rewrite Hpc.
  unfold new_random. simpl. done.
Qed.

Lemma Sticky_ChoosePod_resolved pc self ctx (w : World) podList e' chosen :
  sticky_choosers w !! pc = Some self →
  lists (StickyPodClient self) (StickyDeployment self) ctx w (Ok podList) e' →
  hashring_GetNode (pod_Name <$> discovered podList) (Key self) = Some chosen →
  chosen ∈ pod_Name <$> discovered podList →
  ∃ c, last (named chosen (discovered podList)) = Some c ∧
    Sticky_ChoosePod pc ctx w
    = (Done (Some c,
             (Some <$> not_named chosen (discovered podList))
               ++ replicate (length (named chosen (discovered podList)) - 1) None,
             None),
       after_discovery podList e' w).
Proof.
  intros Hpc Hl Hring Hin.
  destruct (named_last _ _ Hin) as (c & Hlast & Hc & Hname).
  exists c. split; [done|].
  unfold StickyPodChooser_ChoosePod, load_sticky. run.
  rewrite Hpc. rewrite (ListRunningPods_ok _ _ _ _ _ _ Hl).
  rewrite index_names_run. simpl. rewrite Hpc, Hring.
  rewrite pod_index_lookup, Hlast. simpl.
  pose proof (named_not_named_length (discovered podList) chosen) as Hlen.
  assert (0 < length (named chosen (discovered podList))) as Hpos.
  { apply last_Some_elem_of in Hlast.
    destruct (named chosen (discovered podList)); [by apply elem_of_nil in Hlast|simpl; lia]. }
  unfold make_slice. rewrite length_fmap.
  case_decide; [|lia]. run.
  replace (Z.to_nat (Z.of_nat (length (discovered podList)) - 1))
    with (length (discovered podList) - 1) by lia.
  rewrite collect_others_run by (rewrite Hname; lia).
  rewrite Hname.
  replace (length (discovered podList) - 1 - length (not_named chosen (discovered podList)))
    with (length (named chosen (discovered podList)) - 1) by lia.
  done.
Qed.


(** ** Selection, affinity and fallback *)

(** Contract of the hash ring. *)
Hypothesis GetNode_empty : ∀ key, hashring_GetNode [] key = None.
Hypothesis GetNode_member : ∀ nodes key node,
  hashring_GetNode nodes key = Some node → node ∈ nodes.
Hypothesis GetNode_resolves : ∀ nodes key,
  nodes ≠ [] → is_Some (hashring_GetNode nodes key).





Lemma discovered_names_sorted podList :
  StronglySorted String.le (pod_Name <$> discovered podList).
Proof.
  eapply StronglySorted_fmap; [|apply discovered_sorted].
  intros a b. by rewrite String_le_leb.
Qed.

Lemma discovered_names_eq podList1 podList2 :
  pod_Name <$> running (Items podList1) ≡ₚ pod_Name <$> running (Items podList2) →
  pod_Name <$> discovered podList1 = pod_Name <$> discovered podList2.
Proof.
  intros Hperm.
  apply (StronglySorted_unique String.le); [apply discovered_names_sorted..|].
  by rewrite !discovered_perm.
Qed.

Lemma fallback_lookup self (w : World) rpc :
  rpc = length (random_choosers w) →
  random_choosers (add_random (fallback_chooser self) w) !! rpc
    = Some (fallback_chooser self).
Proof. intros ->. simpl. by rewrite lookup_app_r, Nat.sub_diag. Qed.

Lemma lists_env client depl ctx (w w' : World) r e' :
  env w = env w' → lists client depl ctx w r e' → lists client depl ctx w' r e'.
Proof. unfold_lists. by intros ->. Qed.

(** C2.  Two calls of the sticky chooser with one key, whose discoveries
    find the same members (the same pod names, each as often; or, for a ring
    that answers by the set of its nodes, the same set of names), return
    chosen pods of the same name.  Where the common membership is empty
    there is no pod to choose: if the second discovery of either call is
    empty too, both calls return the error of the random policy. *)
Theorem sticky_same_membership_same_chosen pc1 pc2 self1 self2 ctx1 ctx2
    (w1 w2 : World) podList1 podList2 e1 e2 :
  sticky_choosers w1 !! pc1 = Some self1 →
  sticky_choosers w2 !! pc2 = Some self2 →
  Key self1 = Key self2 →
  lists (StickyPodClient self1) (StickyDeployment self1) ctx1 w1 (Ok podList1) e1 →
  lists (StickyPodClient self2) (StickyDeployment self2) ctx2 w2 (Ok podList2) e2 →
  let names1 := pod_Name <$> running (Items podList1) in
  let names2 := pod_Name <$> running (Items podList2) in
  names1 ≡ₚ names2 ∨
    (ring_by_membership hashring_GetNode ∧ ∀ name, name ∈ names1 ↔ name ∈ names2) →
  (running (Items podList1) ≠ [] →
   ∃ chosen1 others1 chosen2 others2,
     (Sticky_ChoosePod pc1 ctx1 w1).1 = Done (Some chosen1, others1, None) ∧
     (Sticky_ChoosePod pc2 ctx2 w2).1 = Done (Some chosen2, others2, None) ∧
     pod_Name chosen1 = pod_Name chosen2) ∧
  (running (Items podList1) = [] →
   ∀ again1 again2 e1' e2',
     lists (StickyPodClient self1) (StickyDeployment self1) ctx1 (set_env e1 w1)
       (Ok again1) e1' →
     lists (StickyPodClient self2) (StickyDeployment self2) ctx2 (set_env e2 w2)
       (Ok again2) e2' →
     running (Items again1) = [] → running (Items again2) = [] →
     (Sticky_ChoosePod pc1 ctx1 w1).1 = Done (None, [], Some no_builder_pods) ∧
     (Sticky_ChoosePod pc2 ctx2 w2).1 = Done (None, [], Some no_builder_pods)).
Proof.
  intros Hpc1 Hpc2 Hkey Hl1 Hl2 names1 names2 Hsame. subst names1 names2.
  assert (hashring_GetNode (pod_Name <$> discovered podList1) (Key self1)
          = hashring_GetNode (pod_Name <$> discovered podList2) (Key self2)) as Hg.
  { rewrite Hkey. destruct Hsame as [Hperm|[Hring Hset]].
    - by rewrite (discovered_names_eq _ _ Hperm).
    - apply Hring. intros name. by rewrite !discovered_perm. }
  assert (running (Items podList1) = [] → running (Items podList2) = []) as Hnil.
  { intros H1. rewrite H1 in Hsame. destruct Hsame as [Hperm|[_ Hset]].
    - apply Permutation_nil_l in Hperm. symmetry in Hperm.
      by apply fmap_nil_inv in Hperm.
    - destruct (running (Items podList2)) as [|pod pods]; [done|].
      exfalso. apply (not_elem_of_nil (pod_Name pod)). apply Hset. by left. }
  split.
  - intros Hne.
    assert (pod_Name <$> discovered podList1 ≠ []) as Hne'.
    { intros H. apply fmap_nil_inv in H. apply Hne.
      apply Permutation_nil_r. by rewrite <-H, discovered_perm. }
    destruct (GetNode_resolves _ (Key self1) Hne') as [chosen Hring1].
    pose proof Hring1 as Hring2. rewrite Hg in Hring2.
    pose proof (GetNode_member _ _ _ Hring1) as Hin1.
    pose proof (GetNode_member _ _ _ Hring2) as Hin2.
    destruct (Sticky_ChoosePod_resolved _ _ _ _ _ _ _ Hpc1 Hl1 Hring1 Hin1)
      as (c1 & Hlast1 & ->).
    destruct (Sticky_ChoosePod_resolved _ _ _ _ _ _ _ Hpc2 Hl2 Hring2 Hin2)
      as (c2 & Hlast2 & ->).
    apply named_member in Hlast1 as [_ Hc1], Hlast2 as [_ Hc2].
    eexists c1, _, c2, _. split_and!; [done|done|congruence].
  - intros Hnil1 again1 again2 e1' e2' Ha1 Ha2 Hnil1' Hnil2'.
    pose proof (Hnil Hnil1) as Hnil2.
    assert (∀ podList, running (Items podList) = [] → discovered podList = [])
      as Hempty.
    { intros podList H. apply Permutation_nil_r. by rewrite <-H, discovered_perm. }
    split.
    + rewrite (Sticky_ChoosePod_unresolved _ _ _ _ _ _ Hpc1 Hl1)
        by (rewrite (Hempty _ Hnil1); apply GetNode_empty).
      erewrite Random_ChoosePod_empty;
        [done|by apply fallback_lookup|by eapply lists_env; [|exact Ha1]|by apply Hempty].
    + rewrite (Sticky_ChoosePod_unresolved _ _ _ _ _ _ Hpc2 Hl2)
        by (rewrite (Hempty _ Hnil2); apply GetNode_empty).
      erewrite Random_ChoosePod_empty;
        [done|by apply fallback_lookup|by eapply lists_env; [|exact Ha2]|by apply Hempty].
Qed.

(** C5.  When the ring resolves no node for the key, the sticky chooser
    records the anomaly at error level, makes a random chooser without a
    random source for the same client and deployment, and returns exactly
    what that chooser's [ChoosePod] returns; the call returns, it does not
    panic. *)
Theorem sticky_ring_miss_degrades_to_random pc self ctx (w : World) podList e' :
  sticky_choosers w !! pc = Some self →
  lists (StickyPodClient self) (StickyDeployment self) ctx w (Ok podList) e' →
  hashring_GetNode (pod_Name <$> discovered podList) (Key self) = None →
  let rpc := length (random_choosers w) in
  let w' := add_random (fallback_chooser self)
              (add_logs [no_pod_found_entry (Key self)]
                 (after_discovery podList e' w)) in
  random_choosers w' !! rpc
    = Some {| RandSource := None; RandomPodClient := StickyPodClient self;
              RandomDeployment := StickyDeployment self |} ∧
  Sticky_ChoosePod pc ctx w = Random_ChoosePod rpc ctx w' ∧
  ∃ r, (Sticky_ChoosePod pc ctx w).1 = Done r.
Proof.
  intros Hpc Hl Hring rpc w'.
  assert (random_choosers w' !! rpc = Some (fallback_chooser self)) as Hrpc
    by (by apply fallback_lookup).
  split_and!; [done|by apply Sticky_ChoosePod_unresolved|].
  rewrite (Sticky_ChoosePod_unresolved _ _ _ _ _ _ Hpc Hl Hring).
  destruct Hl as (c & d & selector & Hc & Hd & Hsel & _).
  by eapply (Random_ChoosePod_done _ _ _ _ c d selector Hrpc).
Qed.

(** C7.  When the list call fails, [ListRunningPods] and both choosers
    return the error of the call as it is, and the world is the one that
    this single call left: there is no second call, no log record and no
    other error; in particular the error is not [no builder pods are
    running]. *)
Theorem list_failure_propagates_unchanged pcR selfR pcS selfS client depl ctx
    (w : World) err e' :
  lists client depl ctx w (Failure err) e' →
  random_choosers w !! pcR = Some selfR →
  RandomPodClient selfR = client → RandomDeployment selfR = depl →
  sticky_choosers w !! pcS = Some selfS →
  StickyPodClient selfS = client → StickyDeployment selfS = depl →
  ListRunningPods ctx client depl w
    = (Done ([], Some (External err)), set_env e' w) ∧
  Random_ChoosePod pcR ctx w
    = (Done (None, [], Some (External err)), set_env e' w) ∧
  Sticky_ChoosePod pcS ctx w
    = (Done (None, [], Some (External err)), set_env e' w) ∧
  External err ≠ no_builder_pods.
Proof.
  intros Hl HpcR <- <- HpcS HcS HdS. split_and!; [| | |done].
  - by apply ListRunningPods_fail.
  - by eapply Random_ChoosePod_fail.
  - eapply Sticky_ChoosePod_fail; [done|]. by rewrite HcS, HdS.
Qed.

(** C9.  When the first discovery of the sticky chooser is empty, the ring
    resolves no node and the call is the call of a newly made random chooser
    without a random source, which discovers again: an empty second
    discovery gives the error [no builder pods are running], a non-empty one
    a chosen pod of that second discovery, and a failing list call its
    error. *)
Theorem sticky_empty_discovery_delegates pc self ctx (w : World) podList e' :
  sticky_choosers w !! pc = Some self →
  lists (StickyPodClient self) (StickyDeployment self) ctx w (Ok podList) e' →
  running (Items podList) = [] →
  let rpc := length (random_choosers w) in
  let w' := add_random (fallback_chooser self)
              (add_logs [no_pod_found_entry (Key self)]
                 (after_discovery podList e' w)) in
  RandSource (fallback_chooser self) = None ∧
  random_choosers w !! rpc = None ∧
  random_choosers w' !! rpc = Some (fallback_chooser self) ∧
  Sticky_ChoosePod pc ctx w = Random_ChoosePod rpc ctx w' ∧
  (∀ again e'',
     lists (StickyPodClient self) (StickyDeployment self) ctx w' (Ok again) e'' →
     (running (Items again) = [] →
      (Sticky_ChoosePod pc ctx w).1 = Done (None, [], Some no_builder_pods)) ∧
     (running (Items again) ≠ [] →
      ∃ chosen others,
        (Sticky_ChoosePod pc ctx w).1 = Done (Some chosen, others, None) ∧
        chosen ∈ running (Items again))) ∧
  (∀ err e'',
     lists (StickyPodClient self) (StickyDeployment self) ctx w' (Failure err) e'' →
     (Sticky_ChoosePod pc ctx w).1 = Done (None, [], Some (External err))).
Proof.
  intros Hpc Hl Hnil rpc w'.
  assert (discovered podList = []) as Hd.
  { apply Permutation_nil_r. by rewrite <-Hnil, discovered_perm. }
  assert (Sticky_ChoosePod pc ctx w = Random_ChoosePod rpc ctx w') as Hrun.
  { apply Sticky_ChoosePod_unresolved; [done..|]. rewrite Hd. apply GetNode_empty. }
  split_and!; [done|by apply lookup_ge_None_2|by apply fallback_lookup|done|..].
  - intros again e'' Ha. rewrite Hrun. split.
    + intros Hnil'. erewrite Random_ChoosePod_empty; [done|by apply fallback_lookup|exact Ha|].
      apply Permutation_nil_r. by rewrite <-Hnil', discovered_perm.
    + intros Hne.
      assert (discovered again ≠ []) as Hne'.
      { intros H. apply Hne. apply Permutation_nil_r. by rewrite <-H, discovered_perm. }
      erewrite Random_ChoosePod_ok; [|by apply fallback_lookup|exact Ha|done]. simpl.
      assert (0 < length (discovered again)) as Hlen
        by (destruct (discovered again); [done|simpl; lia]).
      match goal with
      | |- context [drawn_index ?v ?l] =>
          pose proof (drawn_index_range v l Hlen) as Hrange
      end.
      rewrite return_chosen_run by done. simpl.
      set (n := Z.to_nat _) in *.
      assert (n < length (discovered again)) as Hn by lia.
      assert (∀ i, i < length (discovered again) →
                ∃ c, discovered again !! i = Some c ∧ c ∈ running (Items again))
        as Hget.
      { intros i Hi. destruct (lookup_lt_is_Some_2 _ _ Hi) as [c Hc].
        exists c. split; [done|]. rewrite <-discovered_perm.
        by eapply list_elem_of_lookup_2. }
      destruct operand_order.
      * destruct (Hget n Hn) as (c & -> & Hc). by eexists _, _.
      * case_decide as HS.
        -- destruct (Hget (S n) HS) as (c & -> & Hc). by eexists _, _.
        -- destruct (Hget n Hn) as (c & -> & Hc). by eexists _, _.
  - intros err e'' Hf. rewrite Hrun.
    erewrite Random_ChoosePod_fail; [done|by apply fallback_lookup|exact Hf].
Qed.

(** C10.  When the ring resolves a node, the sticky chooser returns a pod of
    that name and a slice [others] of one element less than the replica
    set: the pods of other names in order, followed by one nil entry for
    every further pod that bears the chosen name.  With two or more pods of
    the chosen name the tail of [others] is nil; with pairwise-distinct
    names [others] has no nil entry. *)
Theorem sticky_others_nil_tail pc self ctx (w : World) podList e' chosen :
  sticky_choosers w !! pc = Some self →
  lists (StickyPodClient self) (StickyDeployment self) ctx w (Ok podList) e' →
  hashring_GetNode (pod_Name <$> discovered podList) (Key self) = Some chosen →
  let pods := discovered podList in
  let k := length (named chosen pods) in
  ∃ c others,
    (Sticky_ChoosePod pc ctx w).1 = Done (Some c, others, None) ∧
    pod_Name c = chosen ∧
    1 ≤ k ∧
    others = (Some <$> not_named chosen pods) ++ replicate (k - 1) None ∧
    length others = length pods - 1 ∧
    (2 ≤ k → ∀ i, length pods - k ≤ i < length pods - 1 → others !! i = Some None) ∧
    (NoDup (pod_Name <$> pods) → k = 1 ∧ None ∉ others).
Proof.
  intros Hpc Hl Hring pods k. subst pods k.
  pose proof (GetNode_member _ _ _ Hring) as Hin.
  destruct (Sticky_ChoosePod_resolved _ _ _ _ _ _ _ Hpc Hl Hring Hin)
    as (c & Hlast & ->).
  destruct (named_member _ _ _ Hlast) as [Hc Hname].
  pose proof (named_not_named_length (discovered podList) chosen) as Hlen.
  assert (1 ≤ length (named chosen (discovered podList))) as Hk.
  { apply last_Some_elem_of in Hlast.
    destruct (named chosen (discovered podList)); [by apply elem_of_nil in Hlast|simpl; lia]. }
  eexists c, _. split_and!; [done|done|done|done|..].
  - rewrite length_app, length_fmap, length_replicate. lia.
  - intros Hk2 i Hi.
    rewrite lookup_app_r by (rewrite length_fmap; lia).
    rewrite length_fmap. apply lookup_replicate_2. lia.
  - intros Hnd. apply list_elem_of_lookup in Hc as [n Hn].
    destruct (distinct_names_split _ _ _ Hnd Hn) as [_ Hnamed].
    rewrite Hname in Hnamed. rewrite Hnamed. split; [done|].
    simpl. rewrite app_nil_r. intros (? & ? & ?)%list_elem_of_fmap. done.
Qed.


(** ** What a call leaves alone *)

Lemma keeps_ret {A} (a : A) : keeps_choosers (mret a : M A).
Proof. by intros w. Qed.

Lemma keeps_throw {A} p : keeps_choosers (throw p : M A).
Proof. by intros w. Qed.

Lemma keeps_bind {A B} (m : M A) (k : A → M B) :
  keeps_choosers m → (∀ a, keeps_choosers (k a)) → keeps_choosers (m ≫= k).
Proof.
  intros Hm Hk w. unfold mbind, M_bind. specialize (Hm w).
  destruct (m w) as [[a|p] w1]; simpl in *; [|done].
  destruct (Hk a w1) as [H1 H2]. destruct Hm as [H3 H4].
  by rewrite H1, H2.
Qed.

Lemma keeps_deref {A} (p : option A) : keeps_choosers (deref p : M A).
Proof. destruct p; [apply keeps_ret|apply keeps_throw]. Qed.

Lemma keeps_emit entry : keeps_choosers (emit entry : M ()).
Proof. by intros w. Qed.

Lemma keeps_for_range {A S} (xs : list A) (body : S → A → M S) s :
  (∀ s x, keeps_choosers (body s x)) → keeps_choosers (for_range xs body s).
Proof.
  intros Hbody. revert s. induction xs as [|x xs IH]; intros s; simpl.
  - apply keeps_ret.
  - apply keeps_bind; [apply Hbody|apply IH].
Qed.

Lemma keeps_call_List client ctx opts :
  keeps_choosers (call_List client_List client ctx opts : M _).
Proof.
  apply keeps_bind; [apply keeps_deref|]. intros c w. unfold invoke_List.
  by destruct (client_List c ctx opts (env w)).
Qed.

Lemma keeps_ListRunningPods ctx client depl :
  keeps_choosers (ListRunningPods ctx client depl).
Proof.
  unfold_ListRunningPods.
  apply keeps_bind; [apply keeps_deref|]. intros d.
  destruct (LabelSelectorAsSelector _); [|apply keeps_ret].
  apply keeps_bind; [apply keeps_call_List|]. intros [podList|err]; [|apply keeps_ret].
  apply keeps_bind; [|intros; apply keeps_ret].
  apply keeps_for_range. intros s x. case_decide; [|apply keeps_ret].
  apply keeps_bind; [apply keeps_emit|]. intros; apply keeps_ret.
Qed.

Lemma keeps_load_random pc : keeps_choosers (load_random pc : M _).
Proof. intros w. unfold load_random. by destruct (_ !! _). Qed.

Lemma keeps_load_sticky pc : keeps_choosers (load_sticky pc : M _).
Proof. intros w. unfold load_sticky. by destruct (_ !! _). Qed.

Lemma keeps_return_chosen pods n :
  keeps_choosers (return_chosen operand_order pods n : M _).
Proof.
  unfold return_chosen. case_decide; [|apply keeps_throw].
  destruct (append_cut _ _). apply keeps_ret.
Qed.

Lemma keeps_Random_ChoosePod pc ctx : keeps_choosers (Random_ChoosePod pc ctx).
Proof.
  unfold RandomPodChooser_ChoosePod.
  apply keeps_bind; [apply keeps_load_random|]. intros self.
  apply keeps_bind; [apply keeps_ListRunningPods|]. intros [pods [err|]]; [apply keeps_ret|].
  case_decide; [apply keeps_ret|].
  apply keeps_bind; [apply keeps_load_random|]. intros self'.
  apply keeps_bind.
  - destruct (RandSource self') as [src|].
    + intros w. unfold shared_Int63. by destruct (Source_Int63 _).
    + apply keeps_bind; [by intros w|]. intros; apply keeps_ret.
  - intros v. apply keeps_bind; [apply keeps_emit|]. intros _. apply keeps_return_chosen.
Qed.

Lemma keeps_extends {A} (m : M A) : keeps_choosers m → extends_choosers m.
Proof. intros Hm w. destruct (Hm w) as [-> ->]. done. Qed.

Lemma extends_bind {A B} (m : M A) (k : A → M B) :
  extends_choosers m → (∀ a, extends_choosers (k a)) → extends_choosers (m ≫= k).
Proof.
  intros Hm Hk w. unfold mbind, M_bind. specialize (Hm w).
  destruct (m w) as [[a|p] w1]; simpl in *; [|done].
  destruct (Hk a w1) as [H1 H2]. destruct Hm as [H3 H4].
  split; [by etrans|by rewrite H2].
Qed.

Lemma extends_Sticky_ChoosePod pc ctx : extends_choosers (Sticky_ChoosePod pc ctx).
Proof.
  unfold StickyPodChooser_ChoosePod.
  apply extends_bind; [apply keeps_extends, keeps_load_sticky|]. intros self.
  apply extends_bind; [apply keeps_extends, keeps_ListRunningPods|].
  intros [pods [err|]]; [apply keeps_extends, keeps_ret|].
  apply extends_bind.
  { apply keeps_extends, keeps_for_range. intros [names podMap] pod.
    apply keeps_bind; [apply keeps_deref|]. intros; apply keeps_ret. }
  intros [podNames podMap].
  apply extends_bind; [apply keeps_extends, keeps_load_sticky|]. intros self'.
  destruct (hashring_GetNode _ _) as [chosen|].
  - apply keeps_extends.
    apply keeps_bind.
    { unfold make_slice. case_decide; [apply keeps_ret|apply keeps_throw]. }
    intros otherPods. apply keeps_bind; [|intros [? ?]; apply keeps_ret].
    apply keeps_for_range. intros [others i] pod.
    apply keeps_bind; [apply keeps_deref|]. intros p.
    apply keeps_bind; [apply keeps_deref|]. intros c.
    case_decide; [apply keeps_ret|].
    apply keeps_bind; [|intros; apply keeps_ret].
    unfold store_at. case_decide; [apply keeps_ret|apply keeps_throw].
  - apply extends_bind; [apply keeps_extends, keeps_emit|]. intros _.
    apply extends_bind; [apply keeps_extends, keeps_load_sticky|]. intros self''.
    apply extends_bind.
    + intros w. simpl. split; [by apply prefix_app_r|done].
    + intros rpc. apply keeps_extends, keeps_Random_ChoosePod.
Qed.

(** C8.  A call of [ChoosePod] writes no chooser object: after a call of the
    random chooser the stores of chooser objects are what they were, and
    after a call of the sticky chooser every chooser object that existed is
    what it was (the call may have made a random chooser of its own).  So
    [RandSource], [PodClient], [Deployment] and [Key] stay, and a nil
    [RandSource] stays nil. *)
Theorem ChoosePod_leaves_choosers_unchanged pc ctx (w : World) :
  (let w' := (Random_ChoosePod pc ctx w).2 in
   random_choosers w' = random_choosers w ∧ sticky_choosers w' = sticky_choosers w) ∧
  (let w' := (Sticky_ChoosePod pc ctx w).2 in
   sticky_choosers w' = sticky_choosers w ∧
   ∀ a o, random_choosers w !! a = Some o → random_choosers w' !! a = Some o).
Proof.
  split.
  - apply keeps_Random_ChoosePod.
  - destruct (extends_Sticky_ChoosePod pc ctx w) as [Hpre Hs]. split; [done|].
    intros a o Ha. by eapply prefix_lookup_Some.
Qed.


(** C6, as amended.  For a non-empty replica set of length [N], the index
    that the random chooser draws is [rnd.Int() % N], within [0, N); the
    others are the discovered sequence without the element at that index,
    and the chosen pod is the element at that index when the index
    expression is read before [append] is called.  Of the [2 ^ 63] values of
    the source, index [i] is drawn for [2 ^ 63 / N] of them, and for one more
    when [i < 2 ^ 63 mod N]: the counts of two indices differ by one at
    most. *)
Theorem random_index_in_range_near_uniform pc self ctx (w : World) podList e' :
  random_choosers w !! pc = Some self →
  lists (RandomPodClient self) (RandomDeployment self) ctx w (Ok podList) e' →
  discovered podList ≠ [] →
  let pods := discovered podList in
  let n := drawn_index (source_value (RandSource self)
                          (after_discovery podList e' w)) (length pods) in
  (0 ≤ n < Z.of_nat (length pods))%Z ∧
  (∃ chosen,
     (Random_ChoosePod pc ctx w).1
       = Done (chosen, Some <$> delete (Z.to_nat n) pods, None) ∧
     (operand_order = IndexBeforeCall → chosen = pods !! Z.to_nat n)) ∧
  (∀ i, (0 ≤ i < Z.of_nat (length pods))%Z →
     (Z.of_nat (index_count (length pods) i)
      = 2 ^ 63 / Z.of_nat (length pods)
        + (if decide (i < 2 ^ 63 mod Z.of_nat (length pods)) then 1 else 0))%Z) ∧
  (∀ i j, (0 ≤ i < Z.of_nat (length pods))%Z → (0 ≤ j < Z.of_nat (length pods))%Z →
     (Z.of_nat (index_count (length pods) i)
      - Z.of_nat (index_count (length pods) j) ≤ 1)%Z).
Proof.
  intros Hpc Hl Hne pods n. subst pods n.
  assert (0 < length (discovered podList)) as Hlen
    by (destruct (discovered podList); [done|simpl; lia]).
  pose proof (drawn_index_range (source_value (RandSource self)
    (after_discovery podList e' w)) _ Hlen) as Hrange.
  split_and!.
  - lia.
  - lia.
  - rewrite (Random_ChoosePod_ok _ _ _ _ _ _ Hpc Hl Hne). simpl.
    rewrite return_chosen_run by done. simpl.
    eexists. split; [done|]. by intros ->.
  - intros i Hi. by apply index_count_closed.
  - intros i j Hi Hj. by apply index_count_spread.
Qed.

(** ** Early returns, panics and effects on the world *)

Lemma ListRunningPods_selector_fail client d ctx (w : World) token :
  LabelSelectorAsSelector (app_label d) = Failure token →
  ListRunningPods ctx client (Some d) w = (Done ([], Some (External token)), w).
Proof. intros Hsel. unfold_ListRunningPods. run. by rewrite Hsel. Qed.

(** X1.  When the selector cannot be built from the deployment's name,
    [ListRunningPods] and both choosers return the error of the selector
    library and leave the world as it is: no list call is made, whatever the
    client is (a nil client included), and nothing is logged. *)
Theorem selector_failure_returns_before_list pcR selfR pcS selfS client d ctx
    (w : World) token :
  LabelSelectorAsSelector (app_label d) = Failure token →
  random_choosers w !! pcR = Some selfR →
  RandomDeployment selfR = Some d →
  sticky_choosers w !! pcS = Some selfS →
  StickyDeployment selfS = Some d →
  ListRunningPods ctx client (Some d) w
    = (Done ([], Some (External token)), w) ∧
  Random_ChoosePod pcR ctx w = (Done (None, [], Some (External token)), w) ∧
  Sticky_ChoosePod pcS ctx w = (Done (None, [], Some (External token)), w).
Proof.
  intros Hsel HpcR HdR HpcS HdS. split_and!.
  - by apply ListRunningPods_selector_fail.
  - unfold RandomPodChooser_ChoosePod, load_random. run. rewrite HpcR, HdR.
    by rewrite (ListRunningPods_selector_fail _ _ _ _ _ Hsel).
  - unfold StickyPodChooser_ChoosePod, load_sticky. run. rewrite HpcS, HdS.
    by rewrite (ListRunningPods_selector_fail _ _ _ _ _ Hsel).
Qed.

Lemma ListRunningPods_nil client depl ctx (w : World) :
  depl = None ∨
    (client = None ∧
     ∃ d selector, depl = Some d ∧ LabelSelectorAsSelector (app_label d) = Ok selector) →
  ListRunningPods ctx client depl w = (Panicked NilDereference, w).
Proof.
  intros [->|(-> & d & selector & -> & Hsel)]; unfold_ListRunningPods; run; [done|].
  rewrite Hsel. unfold call_List. by run.
Qed.

(** X2.  With a nil deployment, or with a nil client once the selector is
    built, [ListRunningPods] and both choosers panic on the nil dereference
    and leave the world as it is; a chooser called through a nil receiver
    panics likewise. *)
Theorem nil_collaborator_panics pcR selfR pcS selfS client depl ctx (w : World) :
  depl = None ∨
    (client = None ∧
     ∃ d selector, depl = Some d ∧ LabelSelectorAsSelector (app_label d) = Ok selector) →
  random_choosers w !! pcR = Some selfR →
  RandomPodClient selfR = client → RandomDeployment selfR = depl →
  sticky_choosers w !! pcS = Some selfS →
  StickyPodClient selfS = client → StickyDeployment selfS = depl →
  ListRunningPods ctx client depl w = (Panicked NilDereference, w) ∧
  Random_ChoosePod pcR ctx w = (Panicked NilDereference, w) ∧
  Sticky_ChoosePod pcS ctx w = (Panicked NilDereference, w) ∧
  (∀ pc, random_choosers w !! pc = None →
         Random_ChoosePod pc ctx w = (Panicked NilDereference, w)) ∧
  (∀ pc, sticky_choosers w !! pc = None →
         Sticky_ChoosePod pc ctx w = (Panicked NilDereference, w)).
Proof.
  intros Hnil HpcR HcR HdR HpcS HcS HdS.
  pose proof (ListRunningPods_nil _ _ ctx w Hnil) as Hl. split_and!.
  - done.
  - unfold RandomPodChooser_ChoosePod, load_random. run.
    by rewrite HpcR, HcR, HdR, Hl.
  - unfold StickyPodChooser_ChoosePod, load_sticky. run.
    by rewrite HpcS, HcS, HdS, Hl.
  - intros pc Hpc. unfold RandomPodChooser_ChoosePod, load_random. run.
    by rewrite Hpc.
  - intros pc Hpc. unfold StickyPodChooser_ChoosePod, load_sticky. run.
    by rewrite Hpc.
Qed.

(** X3.  A chooser that has a client and a deployment returns, whatever the
    selector library, the cluster and the random source answer (a source
    that hands out negative values included) and, for the sticky chooser,
    whatever node of the list the ring names: the call does not panic, and
    what it returns is either no pod, no others and an error, or a pod,
    others and no error. *)
Theorem ChoosePod_returns_well_formed pcR selfR pcS selfS ctx (w : World) c d :
  random_choosers w !! pcR = Some selfR →
  RandomPodClient selfR = Some c → RandomDeployment selfR = Some d →
  sticky_choosers w !! pcS = Some selfS →
  StickyPodClient selfS = Some c → StickyDeployment selfS = Some d →
  (∃ r, (Random_ChoosePod pcR ctx w).1 = Done r ∧ well_formed r) ∧
  (∃ r, (Sticky_ChoosePod pcS ctx w).1 = Done r ∧ well_formed r).
Proof.
  intros HpcR HcR HdR HpcS HcS HdS.
  assert (∀ pc self (w : World),
            random_choosers w !! pc = Some self →
            RandomPodClient self = Some c → RandomDeployment self = Some d →
            ∃ r, (Random_ChoosePod pc ctx w).1 = Done r ∧ well_formed r) as HR.
  { clear. intros pc self w Hpc Hc Hd.
    destruct (LabelSelectorAsSelector (app_label d)) as [selector|token] eqn:Hsel.
    - destruct (client_List c ctx {| ListLabelSelector := Selector_String selector |}
                  (env w)) as [[podList|err] e'] eqn:Hlist.
      + assert (lists (RandomPodClient self) (RandomDeployment self) ctx w
                  (Ok podList) e') as Hl by (by exists c, d, selector).
        destruct (decide (discovered podList = [])) as [Hnil|Hne].
        * rewrite (Random_ChoosePod_empty _ _ _ _ _ _ Hpc Hl Hnil).
          eexists. split; [done|]. left. by eexists.
        * rewrite (Random_ChoosePod_ok _ _ _ _ _ _ Hpc Hl Hne). simpl.
          assert (0 < length (discovered podList)) as Hlen
            by (destruct (discovered podList); [done|simpl; lia]).
          match goal with
          | |- context [drawn_index ?v ?l] =>
              pose proof (drawn_index_range v l Hlen) as Hrange
          end.
          rewrite return_chosen_run by done. simpl.
          set (n := Z.to_nat _) in *.
          assert (∀ i, i < length (discovered podList) →
                       is_Some (discovered podList !! i)) as Hget
            by (intros i Hi; by apply lookup_lt_is_Some_2).
          eexists. split; [done|]. right.
          destruct operand_order.
          -- destruct (Hget n ltac:(lia)) as [p ->]. by eexists _, _.
          -- case_decide as HS.
             ++ destruct (Hget (S n) HS) as [p ->]. by eexists _, _.
             ++ destruct (Hget n ltac:(lia)) as [p ->]. by eexists _, _.
      + assert (lists (RandomPodClient self) (RandomDeployment self) ctx w
                  (Failure err) e') as Hl by (by exists c, d, selector).
        rewrite (Random_ChoosePod_fail _ _ _ _ _ _ Hpc Hl).
        eexists. split; [done|]. left. by eexists.
    - unfold RandomPodChooser_ChoosePod, load_random. run. rewrite Hpc, Hd.
      rewrite (ListRunningPods_selector_fail _ _ _ _ _ Hsel). simpl.
      eexists. split; [done|]. left. by eexists. }
  split; [by eapply HR|].
  destruct (LabelSelectorAsSelector (app_label d)) as [selector|token] eqn:Hsel.
  - destruct (client_List c ctx {| ListLabelSelector := Selector_String selector |}
                (env w)) as [[podList|err] e'] eqn:Hlist.
    + assert (lists (StickyPodClient selfS) (StickyDeployment selfS) ctx w
                (Ok podList) e') as Hl by (by exists c, d, selector).
      destruct (hashring_GetNode (pod_Name <$> discovered podList) (Key selfS))
        as [chosen|] eqn:Hring.
      * pose proof (GetNode_member _ _ _ Hring) as Hin.
        destruct (Sticky_ChoosePod_resolved _ _ _ _ _ _ _ HpcS Hl Hring Hin)
          as (p & _ & ->).
        eexists. split; [done|]. right. by eexists _, _.
      * rewrite (Sticky_ChoosePod_unresolved _ _ _ _ _ _ HpcS Hl Hring).
        eapply HR; [by apply fallback_lookup|done..].
    + assert (lists (StickyPodClient selfS) (StickyDeployment selfS) ctx w
                (Failure err) e') as Hl by (by exists c, d, selector).
      rewrite (Sticky_ChoosePod_fail _ _ _ _ _ _ HpcS Hl).
      eexists. split; [done|]. left. by eexists.
  - unfold StickyPodChooser_ChoosePod, load_sticky. run. rewrite HpcS, HdS.
    rewrite (ListRunningPods_selector_fail _ _ _ _ _ Hsel). simpl.
    eexists. split; [done|]. left. by eexists.
Qed.

(** X4.  What a successful discovery does to the world: the environment is
    the one that the single list call left; one debug record is added for
    every running pod of the answer, in the order of the answer, and none
    for the other pods; no random source and no chooser object changes. *)
Theorem ListRunningPods_effect client depl ctx (w : World) podList e' :
  lists client depl ctx w (Ok podList) e' →
  let w' := (ListRunningPods ctx client depl w).2 in
  env w' = e' ∧
  logs w' = logs w ++ running_entries (Items podList) ∧
  length (logs w') = length (logs w) + length (running (Items podList)) ∧
  sources w' = sources w ∧
  random_choosers w' = random_choosers w ∧
  sticky_choosers w' = sticky_choosers w.
Proof.
  intros Hl. rewrite (ListRunningPods_ok _ _ _ _ _ _ Hl). simpl.
  split_and!; try done.
  rewrite length_app. unfold running_entries. by rewrite length_fmap.
Qed.

(** X5.  What a call of the random chooser does to the world after a
    successful discovery.  For an empty replica set it draws nothing: no
    random source changes and only the records of discovery are logged.
    For a non-empty one it takes exactly one value from its source: an
    injected source moves on by one [Int63] and no other source changes,
    and without an injected source no source of the store changes; one more
    debug record follows those of discovery, with the length of the replica
    set and the drawn index. *)
Theorem Random_ChoosePod_effect pc self ctx (w : World) podList e' :
  random_choosers w !! pc = Some self →
  lists (RandomPodClient self) (RandomDeployment self) ctx w (Ok podList) e' →
  let w' := (Random_ChoosePod pc ctx w).2 in
  let pods := discovered podList in
  let n := drawn_index (source_value (RandSource self)
                          (after_discovery podList e' w)) (length pods) in
  env w' = e' ∧
  (pods = [] →
   sources w' = sources w ∧
   logs w' = logs w ++ running_entries (Items podList)) ∧
  (pods ≠ [] →
   logs w' = logs w ++ running_entries (Items podList)
               ++ [drawn_entry (length pods) n] ∧
   match RandSource self with
   | Some src =>
       sources w' = <[src := (Source_Int63 (sources w src)).2]> (sources w) ∧
       ∀ other, other ≠ src → sources w' other = sources w other
   | None => sources w' = sources w
   end).
Proof.
  intros Hpc Hl w' pods n. subst w' pods n.
  destruct (decide (discovered podList = [])) as [Hnil|Hne].
  - rewrite (Random_ChoosePod_empty _ _ _ _ _ _ Hpc Hl Hnil). simpl.
    by split_and!.
  - rewrite (Random_ChoosePod_ok _ _ _ _ _ _ Hpc Hl Hne). simpl.
    assert (0 < length (discovered podList)) as Hlen
      by (destruct (discovered podList); [done|simpl; lia]).
    rewrite return_chosen_run by (by apply drawn_index_range). simpl.
    split_and!.
    + by destruct (RandSource self).
    + done.
    + intros _. split.
      * destruct (RandSource self); simpl; by rewrite <-app_assoc.
      * destruct (RandSource self) as [src|]; simpl; [|done].
        split; [done|]. intros other Hother. by rewrite fn_lookup_insert_ne.
Qed.

(** X6.  With exactly one running pod both choosers return that pod, no
    others and no error, however the operands of the return statement are
    ordered. *)
Theorem single_replica_is_chosen pcR selfR pcS selfS ctx (w : World) podList e' pod :
  random_choosers w !! pcR = Some selfR →
  lists (RandomPodClient selfR) (RandomDeployment selfR) ctx w (Ok podList) e' →
  sticky_choosers w !! pcS = Some selfS →
  lists (StickyPodClient selfS) (StickyDeployment selfS) ctx w (Ok podList) e' →
  running (Items podList) = [pod] →
  (Random_ChoosePod pcR ctx w).1 = Done (Some pod, [], None) ∧
  (Sticky_ChoosePod pcS ctx w).1 = Done (Some pod, [], None).
Proof.
  intros HpcR HlR HpcS HlS Hone.
  assert (discovered podList = [pod]) as Hd.
  { apply Permutation_singleton_r. by rewrite <-Hone, discovered_perm. }
  split.
  - rewrite (Random_ChoosePod_ok _ _ _ _ _ _ HpcR HlR) by (by rewrite Hd).
    simpl. rewrite Hd.
    match goal with
    | |- context [drawn_index ?v ?l] =>
        pose proof (drawn_index_range v l ltac:(simpl; lia)) as Hrange
    end.
    rewrite return_chosen_run by done. simpl in *.
    replace (Z.to_nat (drawn_index _ 1)) with 0 by lia.
    by destruct operand_order.
  - destruct (GetNode_resolves (pod_Name <$> discovered podList) (Key selfS))
      as [chosen Hring]; [by rewrite Hd|].
    pose proof (GetNode_member _ _ _ Hring) as Hin.
    destruct (Sticky_ChoosePod_resolved _ _ _ _ _ _ _ HpcS HlS Hring Hin)
      as (c & Hlast & ->).
    rewrite Hd in Hin, Hlast |- *.
    apply list_elem_of_singleton in Hin. subst chosen.
    destruct (distinct_names_split [pod] 0 pod) as [Hnot Hnamed];
      [apply NoDup_singleton|done|].
    rewrite Hnamed in Hlast |- *. rewrite Hnot. simpl in *.
    by injection Hlast as ->.
Qed.

(** X7.  When the ring names a node, the sticky chooser draws nothing and
    makes nothing: the world after the call is the world after discovery
    (one list call, the records of discovery, no random source moved, no
    chooser made).  No pod that bears the chosen name is among the others,
    and every pod of another name is. *)
Theorem Sticky_ChoosePod_resolved_effect pc self ctx (w : World) podList e' chosen :
  sticky_choosers w !! pc = Some self →
  lists (StickyPodClient self) (StickyDeployment self) ctx w (Ok podList) e' →
  hashring_GetNode (pod_Name <$> discovered podList) (Key self) = Some chosen →
  (Sticky_ChoosePod pc ctx w).2 = after_discovery podList e' w ∧
  sources (Sticky_ChoosePod pc ctx w).2 = sources w ∧
  random_choosers (Sticky_ChoosePod pc ctx w).2 = random_choosers w ∧
  ∃ c others,
    (Sticky_ChoosePod pc ctx w).1 = Done (Some c, others, None) ∧
    ∀ p, Some p ∈ others ↔ p ∈ discovered podList ∧ pod_Name p ≠ chosen.
Proof.
  intros Hpc Hl Hring.
  pose proof (GetNode_member _ _ _ Hring) as Hin.
  destruct (Sticky_ChoosePod_resolved _ _ _ _ _ _ _ Hpc Hl Hring Hin)
    as (c & Hlast & ->). simpl.
  split_and!; [done..|]. eexists c, _. split; [done|].
  intros p. rewrite elem_of_app, list_elem_of_fmap. unfold not_named. split.
  - intros [(q & [= <-] & Hq)|Hrep].
    + by apply list_elem_of_filter in Hq as [? ?].
    + by apply elem_of_replicate in Hrep as [? _].
  - intros [Hp Hne]. left. exists p. split; [done|].
    by apply list_elem_of_filter.
Qed.


End correctness.

(** * Properties across evaluation orders and random sources *)

Section orders.
Context {Env PodInterface Context_ Selector SrcState : Type}.
Context (client_List :
  PodInterface → Context_ → ListOptions → Env → result PodList * Env).
Context (LabelSelectorAsSelector : LabelSelector → result Selector).
Context (Selector_String : Selector → string).
Context (sort_Slice : (Pod → Pod → bool) → list Pod → list Pod).
Context (hashring_GetNode : list string → string → option string).
Context (time_Now_Unix time_Now_Unix' : Env → Z).
Context (rand_NewSource rand_NewSource' : Z → SrcState).
Context (Source_Int63 Source_Int63' : SrcState → Z * SrcState).

Local Abbreviation World := (@World Env PodInterface SrcState).
Local Abbreviation Random_ChoosePod order :=
  (RandomPodChooser_ChoosePod client_List LabelSelectorAsSelector Selector_String
     sort_Slice time_Now_Unix rand_NewSource Source_Int63 order).
Local Abbreviation lists :=
  (lists (SrcState:=SrcState) client_List LabelSelectorAsSelector Selector_String).
Local Abbreviation discovered := (discovered sort_Slice).
Local Abbreviation source_value :=
  (source_value (PodInterface:=PodInterface) time_Now_Unix rand_NewSource Source_Int63).

Hypothesis sort_Slice_perm : ∀ less l, sort_Slice less l ≡ₚ l.
Hypothesis GetNode_member : ∀ nodes key node,
  hashring_GetNode nodes key = Some node → node ∈ nodes.

(** X9.  For a replica set of distinct pods, the random chooser returns the
    same under both orders of the operands of its return statement exactly
    when the drawn index is the last one.  At any other index, with the
    index expression read after the call of [append], the pod at the drawn
    index is returned neither as chosen nor among the others, and the pod
    after it is returned as both. *)
Theorem Random_ChoosePod_orders_agree_at_last pc self ctx (w : World) podList e' :
  random_choosers w !! pc = Some self →
  lists (RandomPodClient self) (RandomDeployment self) ctx w (Ok podList) e' →
  discovered podList ≠ [] →
  NoDup (running (Items podList)) →
  let pods := discovered podList in
  let n := Z.to_nat (drawn_index (source_value (RandSource self)
                                    (after_discovery podList e' w)) (length pods)) in
  (Random_ChoosePod IndexBeforeCall pc ctx w = Random_ChoosePod CallBeforeIndex pc ctx w
   ↔ n = length pods - 1) ∧
  (n < length pods - 1 →
   ∃ lost next,
     pods !! n = Some lost ∧ pods !! S n = Some next ∧
     (Random_ChoosePod CallBeforeIndex pc ctx w).1
       = Done (Some next, Some <$> delete n pods, None) ∧
     lost ≠ next ∧ (lost ∉ delete n pods) ∧ next ∈ delete n pods).
Proof.
  intros Hpc Hl Hne Hnd pods n.
  assert (NoDup pods) as Hndp by (subst pods; by rewrite discovered_perm).
  assert (0 < length pods) as Hlen
    by (subst pods; destruct (discovered podList); [done|simpl; lia]).
  pose proof (drawn_index_range (source_value (RandSource self)
    (after_discovery podList e' w)) _ Hlen) as Hrange.
  assert (n < length pods) as Hn by (subst n; lia).
  destruct (lookup_lt_is_Some_2 pods n Hn) as [lost Hlost].
  rewrite !(Random_ChoosePod_ok _ _ _ _ _ _ _ _ _ _ _ _ _ _ Hpc Hl Hne).
  cbv zeta. fold pods. rewrite !return_chosen_run by done. fold n.
  split.
  - split.
    + intros Heq. case_decide as HS; [|lia].
      destruct (lookup_lt_is_Some_2 pods (S n) HS) as [next Hnext].
      rewrite Hlost, Hnext in Heq.
      assert (lost = next) as <- by congruence.
      pose proof (NoDup_lookup _ _ _ _ Hndp Hlost Hnext). lia.
    + intros Hlast. rewrite decide_False by lia. done.
  - intros Hnot.
    destruct (lookup_lt_is_Some_2 pods (S n) ltac:(lia)) as [next Hnext].
    exists lost, next. rewrite decide_True by lia. rewrite Hnext.
    assert (lost ≠ next) as Hdiff.
    { intros <-. pose proof (NoDup_lookup _ _ _ _ Hndp Hlost Hnext). lia. }
    split_and!; try done.
    + intros (i & Hi)%list_elem_of_lookup.
      destruct (decide (i < n)) as [Hlt|Hge].
      * rewrite list_lookup_delete_lt in Hi by done.
        pose proof (NoDup_lookup _ _ _ _ Hndp Hlost Hi). lia.
      * rewrite list_lookup_delete_ge in Hi by lia.
        pose proof (NoDup_lookup _ _ _ _ Hndp Hlost Hi). lia.
    + apply list_elem_of_lookup. exists n. by rewrite list_lookup_delete_ge.
Qed.

(** X10.  When the ring names a node, what the sticky chooser returns is
    decided by the list answer and the key alone: two calls with the same
    key and the same list answer return the same chosen pod and the same
    others, whatever the clients, the worlds, the clock, the random sources
    and the order of the operands of the random chooser's return are. *)
Theorem Sticky_ChoosePod_ignores_sources order order' pc pc' self self' ctx ctx'
    (w w' : World) podList e e' chosen :
  sticky_choosers w !! pc = Some self →
  sticky_choosers w' !! pc' = Some self' →
  Key self = Key self' →
  lists (StickyPodClient self) (StickyDeployment self) ctx w (Ok podList) e →
  lists (StickyPodClient self') (StickyDeployment self') ctx' w' (Ok podList) e' →
  hashring_GetNode (pod_Name <$> discovered podList) (Key self) = Some chosen →
  (StickyPodChooser_ChoosePod client_List LabelSelectorAsSelector Selector_String
     sort_Slice hashring_GetNode time_Now_Unix rand_NewSource Source_Int63
     order pc ctx w).1
  = (StickyPodChooser_ChoosePod client_List LabelSelectorAsSelector Selector_String
       sort_Slice hashring_GetNode time_Now_Unix' rand_NewSource' Source_Int63'
       order' pc' ctx' w').1.
Proof.
  intros Hpc Hpc' Hkey Hl Hl' Hring.
  pose proof (GetNode_member _ _ _ Hring) as Hin.
  destruct (Sticky_ChoosePod_resolved client_List LabelSelectorAsSelector
              Selector_String sort_Slice hashring_GetNode time_Now_Unix
              rand_NewSource Source_Int63 order _ _ _ _ _ _ _ Hpc Hl Hring Hin)
    as (c & Hlast & ->).
  rewrite Hkey in Hring.
  destruct (Sticky_ChoosePod_resolved client_List LabelSelectorAsSelector
              Selector_String sort_Slice hashring_GetNode time_Now_Unix'
              rand_NewSource' Source_Int63' order' _ _ _ _ _ _ _ Hpc' Hl' Hring Hin)
    as (c' & Hlast' & ->).
  simpl. congruence.
Qed.

End orders.

(** X11.  The draw [rnd.Int() % len] is uniform over the values of the source
    exactly when [len] divides [2 ^ 63]; so it is for every power of two up
    to [2 ^ 63], one replica included. *)
Theorem uniform_draw_iff_divides (len : nat) :
  0 < len →
  (uniform_draw len ↔ (2 ^ 63 mod Z.of_nat len = 0)%Z) ∧
  (∀ k, k ≤ 63 → len = 2 ^ k → uniform_draw len).
Proof.
  intros Hlen.
  assert (uniform_draw len ↔ (2 ^ 63 mod Z.of_nat len = 0)%Z) as Hiff.
  { pose proof (Z.mod_pos_bound (2 ^ 63) (Z.of_nat len) ltac:(lia)) as Hr.
    split.
    - intros Hu.
      destruct (decide (2 ^ 63 mod Z.of_nat len = 0)%Z) as [|Hpos]; [done|].
      specialize (Hu 0%Z (Z.of_nat len - 1)%Z ltac:(lia) ltac:(lia)).
      apply (f_equal Z.of_nat) in Hu.
      rewrite !index_count_closed in Hu by lia.
      rewrite decide_True in Hu by lia. rewrite decide_False in Hu by lia. lia.
    - intros Hz i j Hi Hj. apply Nat2Z.inj.
      rewrite !index_count_closed by done.
      rewrite Hz. by rewrite !decide_False by lia. }
  split; [done|]. intros k Hk ->. apply Hiff.
  rewrite Nat2Z.inj_pow. change (Z.of_nat 2) with 2%Z.
  replace 63%Z with (Z.of_nat k + (63 - Z.of_nat k))%Z by lia.
  rewrite Z.pow_add_r by lia. rewrite Z.mul_comm. apply Z.mod_mul.
  apply Z.pow_nonzero; lia.
Qed.

(** * The concrete instance meets the contracts *)

Lemma demo_sort_Slice_perm (less : Pod → Pod → bool) (l : list Pod) :
  Demo.sort_Slice less l ≡ₚ l.
Proof. apply merge_sort_Permutation. Qed.

Lemma demo_sort_Slice_sorted (less : Pod → Pod → bool) (l : list Pod) :
  strict_weak_order less → StronglySorted (in_order less) (Demo.sort_Slice less l).
Proof.
  intros [Hirr Htrans Hneg].
  assert (Transitive (in_order less)) as HT.
  { intros a b c Hab Hbc. unfold in_order in *. by apply (Hneg c b a). }
  assert (Total (in_order less)) as Htot.
  { intros a b. unfold in_order.
    destruct (less b a) eqn:Hba; [|by left]. right.
    destruct (less a b) eqn:Hab; [|done].
    by rewrite <-(Hirr a), (Htrans a b a Hab Hba). }
  apply (StronglySorted_merge_sort (in_order less)).
Qed.

Lemma demo_GetNode_empty key : Demo.hashring_GetNode [] key = None.
Proof. done. Qed.

Lemma demo_GetNode_member nodes key node :
  Demo.hashring_GetNode nodes key = Some node → node ∈ nodes.
Proof. unfold Demo.hashring_GetNode. apply list_elem_of_lookup_2. Qed.

Lemma demo_GetNode_resolves nodes key :
  nodes ≠ [] → is_Some (Demo.hashring_GetNode nodes key).
Proof.
  intros Hne. unfold Demo.hashring_GetNode. apply lookup_lt_is_Some_2.
  apply Nat.mod_upper_bound. by destruct nodes.
Qed.

Lemma demo_lists (w : @World Demo.Env unit Z) r rest :
  Demo.script (env w) = r :: rest →
  lists Demo.client_List Demo.LabelSelectorAsSelector Demo.Selector_String
    (Some ()) (Some Demo.builder) () w r
    {| Demo.script := rest; Demo.clock := Demo.clock (env w) + 1 |}.
Proof.
  intros Hs. eexists (), Demo.builder, _. split_and!; [done..|].
  unfold Demo.client_List. by rewrite Hs.
Qed.

(** * The theorems at concrete inputs *)

(** C3 at the list [w-2 Running; w-3 Pending; w-1 Running]. *)
Lemma ListRunningPods_running_sorted_witness :
  ∃ pods : list Pod,
    (Demo.ListRunningPods () (Some ()) (Some Demo.builder)
       (Demo.world [Ok Demo.three] 0 "session-42")).1
      = Done (Some <$> pods, None) ∧
    pods ≡ₚ running (Items Demo.three) ∧
    (∀ pod, pod ∈ pods ↔ pod ∈ Items Demo.three ∧ Phase (Status pod) = PodRunning) ∧
    StronglySorted (λ a b, String.leb (pod_Name a) (pod_Name b) = true) pods ∧
    (running (Items Demo.three) = [] → pods = []).
Proof.
  apply (ListRunningPods_running_sorted Demo.client_List
           Demo.LabelSelectorAsSelector Demo.Selector_String Demo.sort_Slice
           demo_sort_Slice_perm demo_sort_Slice_sorted
           (Some ()) (Some Demo.builder) ()
           (Demo.world [Ok Demo.three] 0 "session-42") Demo.three
           {| Demo.script := []; Demo.clock := 1600000001 |}).
  exact (demo_lists (Demo.world [Ok Demo.three] 0 "session-42") _ [] eq_refl).
Defined.


(** C2 at two list answers with the same running pods, [w-1] and [w-2],
    in different orders and among different pods that do not run. *)
Lemma sticky_same_membership_same_chosen_witness :
  ∃ chosen1 others1 chosen2 others2,
    (Demo.StickyPodChooser_ChoosePod IndexBeforeCall 0 ()
       (Demo.world [Ok Demo.three] 0 "session-42")).1
      = Done (Some chosen1, others1, None) ∧
    (Demo.StickyPodChooser_ChoosePod IndexBeforeCall 0 ()
       (Demo.world [Ok Demo.three_again] 9 "session-42")).1
      = Done (Some chosen2, others2, None) ∧
    pod_Name chosen1 = pod_Name chosen2.
Proof.
  refine (proj1 (sticky_same_membership_same_chosen Demo.client_List
           Demo.LabelSelectorAsSelector Demo.Selector_String Demo.sort_Slice
           Demo.hashring_GetNode Demo.time_Now_Unix Demo.rand_NewSource
           Demo.Source_Int63 IndexBeforeCall
           demo_sort_Slice_perm demo_sort_Slice_sorted
           demo_GetNode_empty demo_GetNode_member demo_GetNode_resolves
           0 0 (Demo.sticky_chooser "session-42") (Demo.sticky_chooser "session-42")
           () ()
           (Demo.world [Ok Demo.three] 0 "session-42")
           (Demo.world [Ok Demo.three_again] 9 "session-42")
           Demo.three Demo.three_again
           {| Demo.script := []; Demo.clock := 1600000001 |}
           {| Demo.script := []; Demo.clock := 1600000001 |}
           _ _ _ _ _ _) _).
  - reflexivity.
  - reflexivity.
  - reflexivity.
  - exact (demo_lists (Demo.world [Ok Demo.three] 0 "session-42") _ [] eq_refl).
  - exact (demo_lists (Demo.world [Ok Demo.three_again] 9 "session-42") _ [] eq_refl).
  - left. vm_compute. apply perm_swap.
  - vm_compute. discriminate.
Defined.

(** C5 at a discovery without running pods, where the ring has no node. *)
Lemma sticky_ring_miss_degrades_to_random_witness :
  let w := Demo.world [Ok Demo.idle; Ok Demo.three] 0 "k" in
  let rpc := length (random_choosers w) in
  let w' := add_random (fallback_chooser (Demo.sticky_chooser "k"))
              (add_logs [no_pod_found_entry "k"]
                 (after_discovery Demo.idle
                    {| Demo.script := [Ok Demo.three]; Demo.clock := 1600000001 |} w)) in
  random_choosers w' !! rpc
    = Some {| RandSource := None; RandomPodClient := Some ();
              RandomDeployment := Some Demo.builder |} ∧
  Demo.StickyPodChooser_ChoosePod IndexBeforeCall 0 () w
    = Demo.RandomPodChooser_ChoosePod IndexBeforeCall rpc () w' ∧
  ∃ r, (Demo.StickyPodChooser_ChoosePod IndexBeforeCall 0 () w).1 = Done r.
Proof.
  apply (sticky_ring_miss_degrades_to_random Demo.client_List
           Demo.LabelSelectorAsSelector Demo.Selector_String Demo.sort_Slice
           Demo.hashring_GetNode Demo.time_Now_Unix Demo.rand_NewSource
           Demo.Source_Int63 IndexBeforeCall
           0 (Demo.sticky_chooser "k") ()
           (Demo.world [Ok Demo.idle; Ok Demo.three] 0 "k") Demo.idle
           {| Demo.script := [Ok Demo.three]; Demo.clock := 1600000001 |}).
  - reflexivity.
  - exact (demo_lists (Demo.world [Ok Demo.idle; Ok Demo.three] 0 "k") _ _ eq_refl).
  - reflexivity.
Defined.

(** C6, as amended, at two running pods and the injected source in state 5. *)
Lemma random_index_in_range_near_uniform_witness :
  let w := Demo.world [Ok Demo.three] 5 "k" in
  let pods := Demo.discovered Demo.three in
  let n := drawn_index 5 (length pods) in
  (0 ≤ n < Z.of_nat (length pods))%Z ∧
  ∃ chosen,
    (Demo.RandomPodChooser_ChoosePod IndexBeforeCall 0 () w).1
      = Done (chosen, Some <$> delete (Z.to_nat n) pods, None) ∧
    (IndexBeforeCall = IndexBeforeCall → chosen = pods !! Z.to_nat n).
Proof.
  pose proof (random_index_in_range_near_uniform Demo.client_List
           Demo.LabelSelectorAsSelector Demo.Selector_String Demo.sort_Slice
           Demo.time_Now_Unix Demo.rand_NewSource Demo.Source_Int63
           IndexBeforeCall
           0 (Demo.random_chooser (Some 0)) ()
           (Demo.world [Ok Demo.three] 5 "k") Demo.three
           {| Demo.script := []; Demo.clock := 1600000001 |}) as H.
  destruct H as (Hrange & Hchosen & _).
  - reflexivity.
  - exact (demo_lists (Demo.world [Ok Demo.three] 5 "k") _ [] eq_refl).
  - vm_compute. discriminate.
  - split; [exact Hrange|exact Hchosen].
Defined.

(** C7 at a list call that fails. *)
Lemma list_failure_propagates_unchanged_witness :
  let w := Demo.world [Failure "context deadline exceeded"] 0 "k" in
  let e' := {| Demo.script := []; Demo.clock := 1600000001 |} in
  Demo.ListRunningPods () (Some ()) (Some Demo.builder) w
    = (Done ([], Some (External "context deadline exceeded")), set_env e' w) ∧
  Demo.RandomPodChooser_ChoosePod IndexBeforeCall 0 () w
    = (Done (None, [], Some (External "context deadline exceeded")), set_env e' w) ∧
  Demo.StickyPodChooser_ChoosePod IndexBeforeCall 0 () w
    = (Done (None, [], Some (External "context deadline exceeded")), set_env e' w) ∧
  External "context deadline exceeded" ≠ no_builder_pods.
Proof.
  apply (list_failure_propagates_unchanged Demo.client_List
           Demo.LabelSelectorAsSelector Demo.Selector_String Demo.sort_Slice
           Demo.hashring_GetNode Demo.time_Now_Unix Demo.rand_NewSource
           Demo.Source_Int63 IndexBeforeCall
           0 (Demo.random_chooser (Some 0)) 0 (Demo.sticky_chooser "k")
           (Some ()) (Some Demo.builder) ()
           (Demo.world [Failure "context deadline exceeded"] 0 "k")
           "context deadline exceeded"
           {| Demo.script := []; Demo.clock := 1600000001 |}).
  - exact (demo_lists
             (Demo.world [Failure "context deadline exceeded"] 0 "k")
             _ [] eq_refl).
  - reflexivity.
  - reflexivity.
  - reflexivity.
  - reflexivity.
  - reflexivity.
  - reflexivity.
Defined.

(** C9 at an empty first discovery. *)
Lemma sticky_empty_discovery_delegates_witness :
  let w := Demo.world [Ok Demo.idle; Ok Demo.three] 0 "k" in
  let rpc := length (random_choosers w) in
  let w' := add_random (fallback_chooser (Demo.sticky_chooser "k"))
              (add_logs [no_pod_found_entry "k"]
                 (after_discovery Demo.idle
                    {| Demo.script := [Ok Demo.three]; Demo.clock := 1600000001 |} w)) in
  random_choosers w !! rpc = None ∧
  random_choosers w' !! rpc = Some (fallback_chooser (Demo.sticky_chooser "k")) ∧
  Demo.StickyPodChooser_ChoosePod IndexBeforeCall 0 () w
    = Demo.RandomPodChooser_ChoosePod IndexBeforeCall rpc () w'.
Proof.
  pose proof (sticky_empty_discovery_delegates Demo.client_List
           Demo.LabelSelectorAsSelector Demo.Selector_String Demo.sort_Slice
           Demo.hashring_GetNode Demo.time_Now_Unix Demo.rand_NewSource
           Demo.Source_Int63 IndexBeforeCall
           demo_sort_Slice_perm demo_GetNode_empty
           0 (Demo.sticky_chooser "k") ()
           (Demo.world [Ok Demo.idle; Ok Demo.three] 0 "k") Demo.idle
           {| Demo.script := [Ok Demo.three]; Demo.clock := 1600000001 |}) as H.
  destruct H as (_ & Hnew & Hrpc & Hrun & _).
  - reflexivity.
  - exact (demo_lists (Demo.world [Ok Demo.idle; Ok Demo.three] 0 "k") _ _ eq_refl).
  - reflexivity.
  - split_and!; [exact Hnew|exact Hrpc|exact Hrun].
Defined.

(** C10 at two running pods of one name. *)
Lemma sticky_others_nil_tail_witness :
  let w := Demo.world [Ok Demo.twins] 0 "k" in
  let pods := Demo.discovered Demo.twins in
  let k := length (named "w-1" pods) in
  ∃ c others,
    (Demo.StickyPodChooser_ChoosePod IndexBeforeCall 0 () w).1
      = Done (Some c, others, None) ∧
    pod_Name c = "w-1" ∧
    1 ≤ k ∧
    others = (Some <$> not_named "w-1" pods) ++ replicate (k - 1) None ∧
    length others = length pods - 1 ∧
    (2 ≤ k → ∀ i, length pods - k ≤ i < length pods - 1 → others !! i = Some None) ∧
    (NoDup (pod_Name <$> pods) → k = 1 ∧ None ∉ others).
Proof.
  apply (sticky_others_nil_tail Demo.client_List
           Demo.LabelSelectorAsSelector Demo.Selector_String Demo.sort_Slice
           Demo.hashring_GetNode Demo.time_Now_Unix Demo.rand_NewSource
           Demo.Source_Int63 IndexBeforeCall
           demo_GetNode_member
           0 (Demo.sticky_chooser "k") ()
           (Demo.world [Ok Demo.twins] 0 "k") Demo.twins
           {| Demo.script := []; Demo.clock := 1600000001 |} "w-1").
  - reflexivity.
  - exact (demo_lists (Demo.world [Ok Demo.twins] 0 "k") _ [] eq_refl).
  - vm_compute. reflexivity.
Defined.

(** * Where the statements of the specification fail *)


(** C6 as stated: of three replicas, index 0 is drawn for one more value of
    the source than index 2. *)
Lemma uniform_draw_counterexample : ¬ uniform_draw 3.
Proof. intros H. apply index_count_3. apply H; lia. Qed.

(** C4.  No pod runs at the first list call of the sticky chooser and one
    runs at the second: the call returns that pod and no error, where the
    random chooser returns the error [no builder pods are running] for an
    empty discovery. *)
Theorem sticky_empty_then_running_returns_pod (order : OperandOrder) :
  (Demo.StickyPodChooser_ChoosePod order 0 ()
     (Demo.world [Ok Demo.idle; Ok {| Items := [Demo.pod "w-1" PodRunning] |}]
        0 "k")).1
  = Done (Some (Demo.pod "w-1" PodRunning), [], None) ∧
  (Demo.RandomPodChooser_ChoosePod order 0 ()
     (Demo.world [Ok Demo.idle; Ok {| Items := [Demo.pod "w-1" PodRunning] |}]
        0 "k")).1
  = Done (None, [], Some no_builder_pods).
Proof. destruct order; split; vm_compute; reflexivity. Qed.

(** * The further theorems at concrete inputs *)

(** X1 at a deployment whose name has 64 characters, and a nil client for
    [ListRunningPods]. *)
Lemma selector_failure_returns_before_list_witness :
  let w := Edge.world (Some ()) (Some Edge.long_named) [Ok Demo.three] 0 in
  let err := External "must be no more than 63 characters" in
  Edge.ListRunningPods () None (Some Edge.long_named) w = (Done ([], Some err), w) ∧
  Edge.RandomPodChooser_ChoosePod IndexBeforeCall 0 () w
    = (Done (None, [], Some err), w) ∧
  Edge.StickyPodChooser_ChoosePod IndexBeforeCall 0 () w
    = (Done (None, [], Some err), w).
Proof.
  apply (selector_failure_returns_before_list Demo.client_List
           Edge.LabelSelectorAsSelector Demo.Selector_String Demo.sort_Slice
           Demo.hashring_GetNode Demo.time_Now_Unix Demo.rand_NewSource
           Demo.Source_Int63 IndexBeforeCall
           0 {| RandSource := Some 0; RandomPodClient := Some ();
                RandomDeployment := Some Edge.long_named |}
           0 {| Key := "k"; StickyPodClient := Some ();
                StickyDeployment := Some Edge.long_named |}
           None Edge.long_named ()
           (Edge.world (Some ()) (Some Edge.long_named) [Ok Demo.three] 0)
           "must be no more than 63 characters").
  - vm_compute. reflexivity.
  - reflexivity.
  - reflexivity.
  - reflexivity.
  - reflexivity.
Defined.

(** X2 at choosers without a deployment. *)
Lemma nil_collaborator_panics_witness :
  let w := Edge.world (Some ()) None [Ok Demo.three] 0 in
  Demo.ListRunningPods () (Some ()) None w = (Panicked NilDereference, w) ∧
  Demo.RandomPodChooser_ChoosePod IndexBeforeCall 0 () w
    = (Panicked NilDereference, w) ∧
  Demo.StickyPodChooser_ChoosePod IndexBeforeCall 0 () w
    = (Panicked NilDereference, w) ∧
  (∀ pc, random_choosers w !! pc = None →
         Demo.RandomPodChooser_ChoosePod IndexBeforeCall pc () w
           = (Panicked NilDereference, w)) ∧
  (∀ pc, sticky_choosers w !! pc = None →
         Demo.StickyPodChooser_ChoosePod IndexBeforeCall pc () w
           = (Panicked NilDereference, w)).
Proof.
  apply (nil_collaborator_panics Demo.client_List
           Demo.LabelSelectorAsSelector Demo.Selector_String Demo.sort_Slice
           Demo.hashring_GetNode Demo.time_Now_Unix Demo.rand_NewSource
           Demo.Source_Int63 IndexBeforeCall
           0 {| RandSource := Some 0; RandomPodClient := Some ();
                RandomDeployment := None |}
           0 {| Key := "k"; StickyPodClient := Some ();
                StickyDeployment := None |}
           (Some ()) None ()
           (Edge.world (Some ()) None [Ok Demo.three] 0)).
  - left. reflexivity.
  - reflexivity.
  - reflexivity.
  - reflexivity.
  - reflexivity.
  - reflexivity.
  - reflexivity.
Defined.

(** X3 at two running pods. *)
Lemma ChoosePod_returns_well_formed_witness :
  let w := Demo.world [Ok Demo.three] 5 "session-42" in
  (∃ r, (Demo.RandomPodChooser_ChoosePod CallBeforeIndex 0 () w).1 = Done r ∧
        well_formed r) ∧
  (∃ r, (Demo.StickyPodChooser_ChoosePod CallBeforeIndex 0 () w).1 = Done r ∧
        well_formed r).
Proof.
  apply (ChoosePod_returns_well_formed Demo.client_List
           Demo.LabelSelectorAsSelector Demo.Selector_String Demo.sort_Slice
           Demo.hashring_GetNode Demo.time_Now_Unix Demo.rand_NewSource
           Demo.Source_Int63 CallBeforeIndex demo_GetNode_member
           0 (Demo.random_chooser (Some 0)) 0 (Demo.sticky_chooser "session-42") ()
           (Demo.world [Ok Demo.three] 5 "session-42") () Demo.builder).
  - reflexivity.
  - reflexivity.
  - reflexivity.
  - reflexivity.
  - reflexivity.
  - reflexivity.
Defined.

(** X4 at two running pods and one pending. *)
Lemma ListRunningPods_effect_witness :
  let w := Demo.world [Ok Demo.three] 5 "k" in
  let w' := (Demo.ListRunningPods () (Some ()) (Some Demo.builder) w).2 in
  env w' = {| Demo.script := []; Demo.clock := 1600000001 |} ∧
  logs w' = logs w ++ running_entries (Items Demo.three) ∧
  length (logs w') = length (logs w) + length (running (Items Demo.three)) ∧
  sources w' = sources w ∧
  random_choosers w' = random_choosers w ∧
  sticky_choosers w' = sticky_choosers w.
Proof.
  apply (ListRunningPods_effect Demo.client_List
           Demo.LabelSelectorAsSelector Demo.Selector_String Demo.sort_Slice
           (Some ()) (Some Demo.builder) ()
           (Demo.world [Ok Demo.three] 5 "k") Demo.three
           {| Demo.script := []; Demo.clock := 1600000001 |}).
  exact (demo_lists (Demo.world [Ok Demo.three] 5 "k") _ [] eq_refl).
Defined.

(** X5 at two running pods and the injected source in state 5. *)
Lemma Random_ChoosePod_effect_witness :
  let w := Demo.world [Ok Demo.three] 5 "k" in
  let w' := (Demo.RandomPodChooser_ChoosePod IndexBeforeCall 0 () w).2 in
  env w' = {| Demo.script := []; Demo.clock := 1600000001 |} ∧
  logs w' = logs w ++ running_entries (Items Demo.three) ++ [drawn_entry 2 1] ∧
  sources w' = <[0 := 6%Z]> (sources w) ∧
  (∀ other, other ≠ 0 → sources w' other = sources w other).
Proof.
  pose proof (Random_ChoosePod_effect Demo.client_List
           Demo.LabelSelectorAsSelector Demo.Selector_String Demo.sort_Slice
           Demo.time_Now_Unix Demo.rand_NewSource Demo.Source_Int63
           IndexBeforeCall
           0 (Demo.random_chooser (Some 0)) ()
           (Demo.world [Ok Demo.three] 5 "k") Demo.three
           {| Demo.script := []; Demo.clock := 1600000001 |}) as H.
  destruct H as (Henv & _ & Hdraw).
  - reflexivity.
  - exact (demo_lists (Demo.world [Ok Demo.three] 5 "k") _ [] eq_refl).
  - destruct Hdraw as (Hlogs & Hsrc & Hother).
    + vm_compute. discriminate.
    + split_and!; [exact Henv|exact Hlogs|exact Hsrc|exact Hother].
Defined.

(** X6 at one running pod and one pending. *)
Lemma single_replica_is_chosen_witness :
  let w := Demo.world [Ok Edge.solo] 5 "k" in
  (Demo.RandomPodChooser_ChoosePod CallBeforeIndex 0 () w).1
    = Done (Some (Demo.pod "w-1" PodRunning), [], None) ∧
  (Demo.StickyPodChooser_ChoosePod CallBeforeIndex 0 () w).1
    = Done (Some (Demo.pod "w-1" PodRunning), [], None).
Proof.
  apply (single_replica_is_chosen Demo.client_List
           Demo.LabelSelectorAsSelector Demo.Selector_String Demo.sort_Slice
           Demo.hashring_GetNode Demo.time_Now_Unix Demo.rand_NewSource
           Demo.Source_Int63 CallBeforeIndex
           demo_sort_Slice_perm demo_GetNode_member demo_GetNode_resolves
           0 (Demo.random_chooser (Some 0)) 0 (Demo.sticky_chooser "k") ()
           (Demo.world [Ok Edge.solo] 5 "k") Edge.solo
           {| Demo.script := []; Demo.clock := 1600000001 |}).
  - reflexivity.
  - exact (demo_lists (Demo.world [Ok Edge.solo] 5 "k") _ [] eq_refl).
  - reflexivity.
  - exact (demo_lists (Demo.world [Ok Edge.solo] 5 "k") _ [] eq_refl).
  - reflexivity.
Defined.

(** X7 at two running pods, of which the ring names [w-1]. *)
Lemma Sticky_ChoosePod_resolved_effect_witness :
  let w := Demo.world [Ok Demo.three] 5 "session-42" in
  let e' := {| Demo.script := []; Demo.clock := 1600000001 |} in
  (Demo.StickyPodChooser_ChoosePod IndexBeforeCall 0 () w).2
    = after_discovery Demo.three e' w ∧
  sources (Demo.StickyPodChooser_ChoosePod IndexBeforeCall 0 () w).2 = sources w ∧
  random_choosers (Demo.StickyPodChooser_ChoosePod IndexBeforeCall 0 () w).2
    = random_choosers w ∧
  ∃ c others,
    (Demo.StickyPodChooser_ChoosePod IndexBeforeCall 0 () w).1
      = Done (Some c, others, None) ∧
    ∀ p, Some p ∈ others ↔ p ∈ Demo.discovered Demo.three ∧ pod_Name p ≠ "w-1".
Proof.
  apply (Sticky_ChoosePod_resolved_effect Demo.client_List
           Demo.LabelSelectorAsSelector Demo.Selector_String Demo.sort_Slice
           Demo.hashring_GetNode Demo.time_Now_Unix Demo.rand_NewSource
           Demo.Source_Int63 IndexBeforeCall demo_GetNode_member
           0 (Demo.sticky_chooser "session-42") ()
           (Demo.world [Ok Demo.three] 5 "session-42") Demo.three
           {| Demo.script := []; Demo.clock := 1600000001 |} "w-1").
  - reflexivity.
  - exact (demo_lists (Demo.world [Ok Demo.three] 5 "session-42") _ [] eq_refl).
  - vm_compute. reflexivity.
Defined.


(** X9 at three running pods and the injected source in state 0, which draws
    the index 0. *)
Lemma Random_ChoosePod_orders_agree_at_last_witness :
  let w := Demo.world [Ok Demo.abc] 0 "k" in
  let pods := Demo.discovered Demo.abc in
  let n := Z.to_nat (drawn_index 0 (length pods)) in
  (Demo.RandomPodChooser_ChoosePod IndexBeforeCall 0 () w
   = Demo.RandomPodChooser_ChoosePod CallBeforeIndex 0 () w
   ↔ n = length pods - 1) ∧
  (n < length pods - 1 →
   ∃ lost next,
     pods !! n = Some lost ∧ pods !! S n = Some next ∧
     (Demo.RandomPodChooser_ChoosePod CallBeforeIndex 0 () w).1
       = Done (Some next, Some <$> delete n pods, None) ∧
     lost ≠ next ∧ (lost ∉ delete n pods) ∧ next ∈ delete n pods).
Proof.
  apply (Random_ChoosePod_orders_agree_at_last Demo.client_List
           Demo.LabelSelectorAsSelector Demo.Selector_String Demo.sort_Slice
           Demo.time_Now_Unix Demo.rand_NewSource Demo.Source_Int63
           demo_sort_Slice_perm
           0 (Demo.random_chooser (Some 0)) ()
           (Demo.world [Ok Demo.abc] 0 "k") Demo.abc
           {| Demo.script := []; Demo.clock := 1600000001 |}).
  - reflexivity.
  - exact (demo_lists (Demo.world [Ok Demo.abc] 0 "k") _ [] eq_refl).
  - vm_compute. discriminate.
  - refine (bool_decide_unpack _ _). vm_compute. exact I.
Defined.

(** X10 at one list answer in two worlds: the second with another seed, a
    longer script, a source that hands out -1 and a clock that stands
    still. *)
Lemma Sticky_ChoosePod_ignores_sources_witness :
  (Demo.StickyPodChooser_ChoosePod IndexBeforeCall 0 ()
     (Demo.world [Ok Demo.three] 0 "session-42")).1
  = (Edge.Stuck_ChoosePod CallBeforeIndex 0 ()
       (Demo.world [Ok Demo.three; Ok Demo.idle] 77 "session-42")).1.
Proof.
  apply (Sticky_ChoosePod_ignores_sources Demo.client_List
           Demo.LabelSelectorAsSelector Demo.Selector_String Demo.sort_Slice
           Demo.hashring_GetNode Demo.time_Now_Unix Edge.still_Now_Unix
           Demo.rand_NewSource Demo.rand_NewSource
           Demo.Source_Int63 Edge.stuck_Int63 demo_GetNode_member
           IndexBeforeCall CallBeforeIndex 0 0
           (Demo.sticky_chooser "session-42") (Demo.sticky_chooser "session-42")
           () ()
           (Demo.world [Ok Demo.three] 0 "session-42")
           (Demo.world [Ok Demo.three; Ok Demo.idle] 77 "session-42")
           Demo.three
           {| Demo.script := []; Demo.clock := 1600000001 |}
           {| Demo.script := [Ok Demo.idle]; Demo.clock := 1600000001 |}
           "w-1").
  - reflexivity.
  - reflexivity.
  - reflexivity.
  - exact (demo_lists (Demo.world [Ok Demo.three] 0 "session-42") _ [] eq_refl).
  - exact (demo_lists (Demo.world [Ok Demo.three; Ok Demo.idle] 77 "session-42")
             _ _ eq_refl).
  - vm_compute. reflexivity.
Defined.

(** X11 at four replicas. *)
Lemma uniform_draw_iff_divides_witness :
  (uniform_draw 4 ↔ (2 ^ 63 mod Z.of_nat 4 = 0)%Z) ∧
  (∀ k, k ≤ 63 → 4 = 2 ^ k → uniform_draw 4).
Proof. apply (uniform_draw_iff_divides 4). lia. Defined.
